(** * Sparse variational Gaussian families of GPJax, embedded in Rocq

    This development embeds [gpjax/variational_families.py]: the
    construction of a [VariationalGaussian], its [prior_kl] and [predict]
    methods, and the two methods [WhitenedVariationalGaussian] overrides.

    Arrays of floating-point numbers are modelled as arrays of real
    numbers (a shape and an index function) and every arithmetic
    operation is exact.  The numerical routines the source calls
    ([jnp.linalg.cholesky], [jsp.linalg.solve_triangular], [jnp.matmul],
    the Gaussian KL divergence of distrax) are written out as algorithms
    on these arrays.  Array operations are total: they follow the shape of
    their first operand and do not model the shape errors or the
    broadcasting of numpy, so the statements below are meant for arrays of
    the shapes the data model prescribes ([well_shaped]).

    [jnp.linalg.cholesky] raises no error for a matrix that is not
    positive definite: it returns an array of NaN, and the methods compute
    on with it.  On arrays of reals there is no such factor, and
    [cholesky], [prior_kl] and [predict] are [None] in that case; module
    [NaN] follows the methods with the NaN factor, and gives the results
    of the definitions on reals whenever the factor exists. *)

From Stdlib Require Import Reals Lra Lia List String Arith Psatz.
Import ListNotations.

Local Open Scope R_scope.

(** ** Finite sums and index functions *)

(** [rsum n f] is [f 0 + ... + f (n-1)]. *)
Fixpoint rsum (n : nat) (f : nat -> R) : R :=
  match n with
  | O => 0
  | S k => rsum k f + f k
  end.

(** The entries of a matrix, as a function of the row and column index. *)
Definition Mat := nat -> nat -> R.

Definition mmul (k : nat) (A B : Mat) : Mat :=
  fun i j => rsum k (fun l => A i l * B l j).

Definition mtrans (A : Mat) : Mat := fun i j => A j i.

(** The quadratic form x^T K x on the first [n] coordinates. *)
Definition qf (n : nat) (K : Mat) (x : nat -> R) : R :=
  rsum n (fun i => rsum n (fun j => x i * K i j * x j)).

Definition nonzero_vec (n : nat) (x : nat -> R) : Prop :=
  exists i, (i < n)%nat /\ x i <> 0.

Definition posdef (n : nat) (K : Mat) : Prop :=
  forall x, nonzero_vec n x -> 0 < qf n K x.

Definition possemidef (n : nat) (K : Mat) : Prop :=
  forall x, 0 <= qf n K x.

Definition msym (n : nat) (K : Mat) : Prop :=
  forall i j, (i < n)%nat -> (j < n)%nat -> K i j = K j i.

Definition lower_tri (n : nat) (L : Mat) : Prop :=
  forall i j, (i < j)%nat -> (j < n)%nat -> L i j = 0.

Definition upper_tri (n : nat) (U : Mat) : Prop :=
  forall i j, (j < i)%nat -> (i < n)%nat -> U i j = 0.

Definition diag_pos (n : nat) (L : Mat) : Prop :=
  forall i, (i < n)%nat -> 0 < L i i.

Definition diag_nonzero (n : nat) (L : Mat) : Prop :=
  forall i, (i < n)%nat -> L i i <> 0.

(** The matrix of blocks [[A, B], [B^T, D]], with A of size m. *)
Definition block_joint (m : nat) (A B D : Mat) : Mat :=
  fun i j =>
    if (i <? m)%nat
    then if (j <? m)%nat then A i j else B i (j - m)%nat
    else if (j <? m)%nat then B j (i - m)%nat else D (i - m)%nat (j - m)%nat.

(** ** The linear-algebra routines *)

(** The trailing block left after eliminating row and column 0. *)
Definition schur (K : Mat) : Mat :=
  fun i j => K (S i) (S j) - K (S i) O * K (S j) O / K O O.

Definition chol_assemble (K L' : Mat) : Mat :=
  fun i j =>
    match i, j with
    | O, O => sqrt (K O O)
    | O, S _ => 0
    | S i', O => K (S i') O / sqrt (K O O)
    | S i', S j' => L' i' j'
    end.

(** Cholesky factorisation of the leading [n] by [n] block, one column
    at a time: the pivot must be positive; the first column of the factor
    is the first column of [K] over the root of the pivot; the rest is the
    factor of the trailing block.  A pivot that is not positive is the
    failure of the factorisation. *)
Fixpoint chol (n : nat) (K : Mat) : option Mat :=
  match n with
  | O => Some (fun _ _ => 0)
  | S n' =>
      if Rlt_dec 0 (K O O) then
        match chol n' (schur K) with
        | Some L' => Some (chol_assemble K L')
        | None => None
        end
      else None
  end.

(** Forward substitution for a lower-triangular system [L x = b]:
    x0 = b0 / L00, then the remaining system with x0 eliminated.  Only the
    lower triangle of [L] is read. *)
Fixpoint forward_subst (n : nat) (L : Mat) (b : nat -> R) : nat -> R :=
  match n with
  | O => fun _ => 0
  | S n' =>
      let x0 := b O / L O O in
      let rest :=
        forward_subst n' (fun i j => L (S i) (S j))
          (fun i => b (S i) - L (S i) O * x0) in
      fun i => match i with O => x0 | S i' => rest i' end
  end.

(** Backward substitution for an upper-triangular system [U x = b]:
    the trailing unknowns first, then x0 from row 0.  Only the upper
    triangle of [U] is read. *)
Fixpoint back_subst (n : nat) (U : Mat) (b : nat -> R) : nat -> R :=
  match n with
  | O => fun _ => 0
  | S n' =>
      let rest :=
        back_subst n' (fun i j => U (S i) (S j)) (fun i => b (S i)) in
      let x0 := (b O - rsum n' (fun k => U O (S k) * rest k)) / U O O in
      fun i => match i with O => x0 | S i' => rest i' end
  end.

(** ** Arrays *)

(** A two-dimensional array: [a.shape[0]], [a.shape[1]] and the entries. *)
Record Array := mkArray {
  shape0 : nat;
  shape1 : nat;
  entry : Mat
}.

(** A one-dimensional array. *)
Record Vector := mkVector {
  size : nat;
  coord : nat -> R
}.

(** Two arrays are equal when they have the same shape and the same
    entries at every index inside it. *)
Definition array_eq (a b : Array) : Prop :=
  shape0 a = shape0 b /\ shape1 a = shape1 b /\
  forall i j, (i < shape0 a)%nat -> (j < shape1 a)%nat ->
    entry a i j = entry b i j.

Definition vector_eq (u v : Vector) : Prop :=
  size u = size v /\
  forall i, (i < size u)%nat -> coord u i = coord v i.

(** [jnp.matmul a b]. *)
Definition matmul (a b : Array) : Array :=
  mkArray (shape0 a) (shape1 b) (mmul (shape1 a) (entry a) (entry b)).

(** [a.T]. *)
Definition transpose (a : Array) : Array :=
  mkArray (shape1 a) (shape0 a) (mtrans (entry a)).

(** [a + b] and [a - b], entry by entry. *)
Definition add (a b : Array) : Array :=
  mkArray (shape0 a) (shape1 a) (fun i j => entry a i j + entry b i j).

Definition sub (a b : Array) : Array :=
  mkArray (shape0 a) (shape1 a) (fun i j => entry a i j - entry b i j).

(** [a * c] for a scalar [c]. *)
Definition mul_scalar (a : Array) (c : R) : Array :=
  mkArray (shape0 a) (shape1 a) (fun i j => entry a i j * c).

(** [jnp.zeros((m, n))] and [jnp.zeros(m)]. *)
Definition zeros2 (m n : nat) : Array := mkArray m n (fun _ _ => 0).

Definition zeros (m : nat) : Vector := mkVector m (fun _ => 0).

(** [jnp.tril a]: the entries above the diagonal are replaced by 0. *)
Definition tril (a : Array) : Array :=
  mkArray (shape0 a) (shape1 a)
    (fun i j => if (j <=? i)%nat then entry a i j else 0).

(** [jnp.atleast_1d(a.squeeze())] for a column [a] of shape (n, 1): the
    vector of its n entries. *)
Definition squeeze (a : Array) : Vector :=
  mkVector (shape0 a) (fun i => entry a i O).

Definition atleast_1d (v : Vector) : Vector := v.

(** A vector as a column, and the difference of two vectors. *)
Definition column (v : Vector) : Array :=
  mkArray (size v) 1 (fun i _ => coord v i).

Definition vsub (u v : Vector) : Vector :=
  mkVector (size u) (fun i => coord u i - coord v i).

Module utils.

(** [I(n)]: the identity matrix of size n. *)
Definition I (n : nat) : Array :=
  mkArray n n (fun i j => if (i =? j)%nat then 1 else 0).

End utils.

(** [(a + a.T) / 2]. *)
Definition symmetrize (K : Mat) : Mat :=
  fun i j => (K i j + K j i) / 2.

(** [jnp.linalg.cholesky a]: the input is symmetrised, then factorised;
    the result is the lower-triangular factor.  [None] stands for the
    array of NaN that is returned when the matrix is not positive
    definite; see [NaN.cholesky]. *)
Definition cholesky (a : Array) : option Array :=
  match chol (shape0 a) (symmetrize (entry a)) with
  | Some L => Some (mkArray (shape0 a) (shape1 a) L)
  | None => None
  end.

(** [jsp.linalg.solve_triangular a b lower]: solves [a x = b] for every
    column of [b], by forward substitution when [lower] and by backward
    substitution otherwise. *)
Definition solve_triangular (a b : Array) (lower : bool) : Array :=
  mkArray (shape0 b) (shape1 b)
    (fun i j =>
       (if lower then forward_subst else back_subst)
         (shape0 a) (entry a) (fun k => entry b k j) i).

(** The symmetric part of a square array, which is what is factorised. *)
Definition symmetric_part (a : Array) : Array :=
  mkArray (shape0 a) (shape1 a) (symmetrize (entry a)).

Definition positive_definite (a : Array) : Prop :=
  posdef (shape0 a) (entry a).

Definition symmetric (a : Array) : Prop :=
  shape0 a = shape1 a /\ msym (shape0 a) (entry a).

Definition lower_triangular (a : Array) : Prop :=
  lower_tri (shape1 a) (entry a).

(** ** Distributions *)

(** A multivariate normal given by its location and its scale matrix
    (covariance = scale scale^T), as [dx.MultivariateNormalTri] and
    [dx.MultivariateNormalDiag] both are. *)
Record MultivariateNormalFromScale := mkMvnScale {
  loc : Vector;
  scale : Array
}.

(** [dx.MultivariateNormalTri(loc, scale_tri)]: only the lower triangle
    of [scale_tri] is used. *)
Definition MultivariateNormalTri (loc : Vector) (scale_tri : Array)
  : MultivariateNormalFromScale :=
  mkMvnScale loc (tril scale_tri).

(** [dx.MultivariateNormalDiag(loc)]: the scale defaults to the identity. *)
Definition MultivariateNormalDiag (loc : Vector) : MultivariateNormalFromScale :=
  mkMvnScale loc (utils.I (size loc)).

(** The log of the absolute determinant of a triangular scale: the sum of
    the logs of the absolute values of its diagonal. *)
Definition log_abs_det (s : Array) : R :=
  rsum (shape0 s) (fun i => ln (Rabs (entry s i i))).

Definition squared_frobenius_norm (a : Array) : R :=
  rsum (shape0 a) (fun i => rsum (shape1 a) (fun j => entry a i j * entry a i j)).

(** [qu.kl_divergence(pu)] between two such normals: with scales A and B,
    log|det B| - log|det A|
      + (-d + ||B^-1 A||_F^2 + ||B^-1 (loc_q - loc_p)||^2) / 2,
    where B^-1 is applied by a triangular solve. *)
Definition kl_divergence (qu pu : MultivariateNormalFromScale) : R :=
  let num_dims := size (loc qu) in
  let diff_log_abs_det := log_abs_det (scale pu) - log_abs_det (scale qu) in
  let scale_ratio := solve_triangular (scale pu) (scale qu) true in
  let diff_loc := solve_triangular (scale pu) (column (vsub (loc qu) (loc pu))) true in
  diff_log_abs_det
  + (- INR num_dims + squared_frobenius_norm scale_ratio
     + squared_frobenius_norm diff_loc) / 2.

(** [dx.MultivariateNormalFullCovariance(loc, covariance_matrix)]: the
    distribution [predict] returns, held as its two parameters. *)
Record MultivariateNormalFullCovariance := mkMvnFullCov {
  mean : Vector;
  covariance : Array
}.

(** ** Parameter transforms and their registry *)

(** The bijectors named in the source; [Diagonal] is its [dx.Lambda] and
    [TfbFillTriangular] is [tfb.FillTriangular()]. *)
#[warnings="-register-all"]
Inductive Bijector :=
| Identity
| Softplus
| Diagonal
| TfbFillTriangular
| Chain (bs : list Bijector).

Definition FillDiagonal : Bijector := Chain [Diagonal; Softplus].

Definition FillTriangular : Bijector := Chain [TfbFillTriangular].

(** Modelled from the spec: the parameter-schema registry of [config],
    [register(name, transform)], a process-wide table from parameter names
    to transforms.  The latest registration of a name comes first. *)
Definition Registry := list (string * Bijector).

Definition add_parameter (param_name : string) (bijection : Bijector)
  (registry : Registry) : Registry :=
  (param_name, bijection) :: registry.

Fixpoint registered (param_name : string) (registry : Registry) : option Bijector :=
  match registry with
  | [] => None
  | (k, b) :: rest =>
      if String.eqb k param_name then Some b else registered param_name rest
  end.

(** ** The prior and the parameter dictionary *)

(** A dictionary of named arrays, as the kernel and the mean function
    take for their parameters. *)
Definition Dict := list (string * Array).

(** Modelled from the spec: the kernel library is not in the sources.
    A kernel is represented by the entries of the matrices that
    [gram(kernel, X, params)] and [cross_covariance(kernel, X, Y, params)]
    produce for it; their shapes are |X| by |X| and |X| by |Y|. *)
Record Kernel := mkKernel {
  gram_entries : Array -> Dict -> Mat;
  cross_covariance_entries : Array -> Array -> Dict -> Mat
}.

Definition gram (kernel : Kernel) (inputs : Array) (params : Dict) : Array :=
  mkArray (shape0 inputs) (shape0 inputs) (gram_entries kernel inputs params).

Definition cross_covariance (kernel : Kernel) (x y : Array) (params : Dict) : Array :=
  mkArray (shape0 x) (shape0 y) (cross_covariance_entries kernel x y params).

(** Modelled from the spec: [mean_function(X, params)] returns a column
    of |X| prior means; a mean function is represented by its entries. *)
Record MeanFunction := mkMeanFunction {
  mean_entries : Array -> Dict -> nat -> R
}.

Definition call_mean_function (f : MeanFunction) (x : Array) (params : Dict) : Array :=
  mkArray (shape0 x) 1 (fun i _ => mean_entries f x params i).

Module Prior.

Record t := mk {
  kernel : Kernel;
  mean_function : MeanFunction
}.

End Prior.

(** The parameter dictionary: [params["kernel"]], [params["mean_function"]]
    and the three arrays under [params["variational_family"]]. *)
Module Params.

Record variational_family_t := mk_variational_family {
  inducing_inputs : Array;
  variational_mean : Array;
  variational_root_covariance : Array
}.

Record t := mk {
  kernel : Dict;
  mean_function : Dict;
  variational_family : variational_family_t
}.

End Params.

(** ** VariationalGaussian *)

Module VariationalGaussian.

(** The fields of the dataclass, and [num_inducing], which
    [__post_init__] sets. *)
Record t := mk {
  prior : Prior.t;
  inducing_inputs : Array;
  name : string;
  variational_mean : option Array;
  variational_root_covariance : option Array;
  diag : bool;
  jitter : R;
  num_inducing : nat
}.

Definition set_num_inducing (self : t) (m : nat) : t :=
  mk (prior self) (inducing_inputs self) (name self) (variational_mean self)
     (variational_root_covariance self) (diag self) (jitter self) m.

Definition set_variational_mean (self : t) (a : Array) : t :=
  mk (prior self) (inducing_inputs self) (name self) (Some a)
     (variational_root_covariance self) (diag self) (jitter self)
     (num_inducing self).

Definition set_variational_root_covariance (self : t) (a : Array) : t :=
  mk (prior self) (inducing_inputs self) (name self) (variational_mean self)
     (Some a) (diag self) (jitter self) (num_inducing self).

Definition set_diag (self : t) (d : bool) : t :=
  mk (prior self) (inducing_inputs self) (name self) (variational_mean self)
     (variational_root_covariance self) d (jitter self) (num_inducing self).

(** [__post_init__], threading the instance and the registry. *)
Definition __post_init__ (self : t) (registry : Registry) : t * Registry :=
  let self := set_num_inducing self (shape0 (inducing_inputs self)) in
  let registry := add_parameter "inducing_inputs" Identity registry in
  let m := num_inducing self in
  let '(self, registry) :=
    match variational_mean self with
    | None =>
        (set_variational_mean self (zeros2 m 1),
         add_parameter "variational_mean" Identity registry)
    | Some _ => (self, registry)
    end in
  match variational_root_covariance self with
  | None =>
      (set_variational_root_covariance self (utils.I m),
       if diag self
       then add_parameter "variational_root_covariance" FillDiagonal registry
       else add_parameter "variational_root_covariance" FillTriangular registry)
  | Some _ => (self, registry)
  end.

(** Construction: the dataclass stores its arguments, then runs
    [__post_init__]. *)
Definition new (prior : Prior.t) (inducing_inputs : Array) (name : string)
  (variational_mean variational_root_covariance : option Array)
  (diag : bool) (jitter : R) (registry : Registry) : t * Registry :=
  __post_init__
    (mk prior inducing_inputs name variational_mean
        variational_root_covariance diag jitter O)
    registry.

(** Kzz after [Kzz += I(m) * self.jitter]: the jitter on the diagonal.
    This is the sum for m = |z|, which [__post_init__] establishes; for
    another m numpy would broadcast I(m) or raise, which is not
    modelled. *)
Definition jittered_Kzz (self : t) (params : Params.t) : Array :=
  let z := Params.inducing_inputs (Params.variational_family params) in
  let m := num_inducing self in
  let Kzz := gram (Prior.kernel (prior self)) z (Params.kernel params) in
  add Kzz (mul_scalar (utils.I m) (jitter self)).

(** [prior_kl] and [predict] on arrays of reals.  They are [None] when
    the factor is NaN; the scalar and the function the methods return
    then are [NaN.VariationalGaussian.prior_kl] and
    [NaN.VariationalGaussian.predict]. *)
Definition prior_kl (self : t) (params : Params.t) : option R :=
  let mu := Params.variational_mean (Params.variational_family params) in
  let sqrt := Params.variational_root_covariance (Params.variational_family params) in
  let m := num_inducing self in
  let z := Params.inducing_inputs (Params.variational_family params) in
  let μz := call_mean_function (Prior.mean_function (prior self)) z
              (Params.mean_function params) in
  let Kzz := gram (Prior.kernel (prior self)) z (Params.kernel params) in
  let Kzz := add Kzz (mul_scalar (utils.I m) (jitter self)) in
  match cholesky Kzz with
  | None => None
  | Some Lz =>
      let qu := MultivariateNormalTri (atleast_1d (squeeze mu)) sqrt in
      let pu := MultivariateNormalTri (atleast_1d (squeeze μz)) Lz in
      Some (kl_divergence qu pu)
  end.

Definition predict (self : t) (params : Params.t)
  : option (Array -> MultivariateNormalFullCovariance) :=
  let mu := Params.variational_mean (Params.variational_family params) in
  let sqrt := Params.variational_root_covariance (Params.variational_family params) in
  let z := Params.inducing_inputs (Params.variational_family params) in
  let m := num_inducing self in
  let Kzz := gram (Prior.kernel (prior self)) z (Params.kernel params) in
  let Kzz := add Kzz (mul_scalar (utils.I m) (jitter self)) in
  match cholesky Kzz with
  | None => None
  | Some Lz =>
      let μz := call_mean_function (Prior.mean_function (prior self)) z
                  (Params.mean_function params) in
      Some (fun test_inputs =>
        let t := test_inputs in
        let n_test := shape0 t in
        let Ktt := gram (Prior.kernel (prior self)) t (Params.kernel params) in
        let Kzt := cross_covariance (Prior.kernel (prior self)) z t
                     (Params.kernel params) in
        let μt := call_mean_function (Prior.mean_function (prior self)) t
                    (Params.mean_function params) in
        let Lz_inv_Kzt := solve_triangular Lz Kzt true in
        let Kzz_inv_Kzt := solve_triangular (transpose Lz) Lz_inv_Kzt false in
        let Ktz_Kzz_inv_sqrt := matmul (transpose Kzz_inv_Kzt) sqrt in
        let mean := add μt (matmul (transpose Kzz_inv_Kzt) (sub mu μz)) in
        let covariance :=
          add (sub Ktt (matmul (transpose Lz_inv_Kzt) Lz_inv_Kzt))
              (matmul Ktz_Kzz_inv_sqrt (transpose Ktz_Kzz_inv_sqrt)) in
        let covariance := add covariance (mul_scalar (utils.I n_test) (jitter self)) in
        mkMvnFullCov (atleast_1d (squeeze mean)) covariance)
  end.

(** The [params] property: the parameter dictionary of the prior merged
    with the family's own three arrays.  [self.prior.params] is not in the
    sources; its "kernel" and "mean_function" entries are arguments here.
    The two optional arrays are set once [__post_init__] has run; before
    that there is no dictionary of arrays. *)
Definition params (self : t) (prior_kernel_params prior_mean_function_params : Dict)
  : option Params.t :=
  match variational_mean self, variational_root_covariance self with
  | Some mu, Some sqrt =>
      Some (Params.mk prior_kernel_params prior_mean_function_params
              (Params.mk_variational_family (inducing_inputs self) mu sqrt))
  | _, _ => None
  end.

(** [__call__] of [AbstractVariationalFamily]: the family's [predict]. *)
Definition __call__ (self : t) (params : Params.t)
  : option (Array -> MultivariateNormalFullCovariance) :=
  predict self params.

End VariationalGaussian.

(** ** WhitenedVariationalGaussian *)

(** The subclass has the fields and the construction of
    [VariationalGaussian] and overrides [prior_kl] and [predict]. *)
Module WhitenedVariationalGaussian.

Definition t := VariationalGaussian.t.

Definition prior_kl (self : t) (params : Params.t) : R :=
  let mu := Params.variational_mean (Params.variational_family params) in
  let sqrt := Params.variational_root_covariance (Params.variational_family params) in
  let m := VariationalGaussian.num_inducing self in
  let qu := MultivariateNormalTri (atleast_1d (squeeze mu)) sqrt in
  let pu := MultivariateNormalDiag (zeros m) in
  kl_divergence qu pu.

Definition predict (self : t) (params : Params.t)
  : option (Array -> MultivariateNormalFullCovariance) :=
  let mu := Params.variational_mean (Params.variational_family params) in
  let sqrt := Params.variational_root_covariance (Params.variational_family params) in
  let z := Params.inducing_inputs (Params.variational_family params) in
  let m := VariationalGaussian.num_inducing self in
  let Kzz := gram (Prior.kernel (VariationalGaussian.prior self)) z
               (Params.kernel params) in
  let Kzz := add Kzz (mul_scalar (utils.I m) (VariationalGaussian.jitter self)) in
  match cholesky Kzz with
  | None => None
  | Some Lz =>
      Some (fun test_inputs =>
        let t := test_inputs in
        let n_test := shape0 t in
        let Ktt := gram (Prior.kernel (VariationalGaussian.prior self)) t
                     (Params.kernel params) in
        let Kzt := cross_covariance (Prior.kernel (VariationalGaussian.prior self))
                     z t (Params.kernel params) in
        let μt := call_mean_function
                    (Prior.mean_function (VariationalGaussian.prior self)) t
                    (Params.mean_function params) in
        let Lz_inv_Kzt := solve_triangular Lz Kzt true in
        let Ktz_Lz_invT_sqrt := matmul (transpose Lz_inv_Kzt) sqrt in
        let mean := add μt (matmul (transpose Lz_inv_Kzt) mu) in
        let covariance :=
          add (sub Ktt (matmul (transpose Lz_inv_Kzt) Lz_inv_Kzt))
              (matmul Ktz_Lz_invT_sqrt (transpose Ktz_Lz_invT_sqrt)) in
        let covariance :=
          add covariance
              (mul_scalar (utils.I n_test) (VariationalGaussian.jitter self)) in
        mkMvnFullCov (atleast_1d (squeeze mean)) covariance)
  end.

Definition __call__ (self : t) (params : Params.t)
  : option (Array -> MultivariateNormalFullCovariance) :=
  predict self params.

End WhitenedVariationalGaussian.

(** ** The quantities the methods compute, by name *)

Section Quantities.

Variable self : VariationalGaussian.t.
Variable params : Params.t.

(** [mu], [sqrt] and [z] as read from the parameter dictionary. *)
Definition param_mu : Array :=
  Params.variational_mean (Params.variational_family params).

Definition param_sqrt : Array :=
  Params.variational_root_covariance (Params.variational_family params).

Definition param_z : Array :=
  Params.inducing_inputs (Params.variational_family params).

(** The prior mean at the inducing inputs and, for a test batch, the
    prior mean, the gram matrix and the cross-covariance. *)
Definition prior_mean_z : Array :=
  call_mean_function (Prior.mean_function (VariationalGaussian.prior self))
    param_z (Params.mean_function params).

Definition prior_mean_t (t : Array) : Array :=
  call_mean_function (Prior.mean_function (VariationalGaussian.prior self))
    t (Params.mean_function params).

Definition prior_Ktt (t : Array) : Array :=
  gram (Prior.kernel (VariationalGaussian.prior self)) t (Params.kernel params).

Definition prior_Kzt (t : Array) : Array :=
  cross_covariance (Prior.kernel (VariationalGaussian.prior self)) param_z t
    (Params.kernel params).

Definition prior_Kzz : Array :=
  gram (Prior.kernel (VariationalGaussian.prior self)) param_z
    (Params.kernel params).

(** The joint prior covariance over the inducing and the test points:
    the blocks Kzz, Kzt, Kzt^T and Ktt. *)
Definition joint_prior_covariance (t : Array) : Array :=
  let m := shape0 param_z in
  let n := shape0 t in
  mkArray (m + n) (m + n)
    (block_joint m (entry prior_Kzz) (entry (prior_Kzt t)) (entry (prior_Ktt t))).

(** The arrays of the dictionary have the shapes of the data model:
    M inducing inputs, a mean of shape (M, 1), a root of shape (M, M). *)
Definition well_shaped : Prop :=
  shape0 param_z = VariationalGaussian.num_inducing self /\
  shape0 param_mu = VariationalGaussian.num_inducing self /\
  shape1 param_mu = 1%nat /\
  shape0 param_sqrt = VariationalGaussian.num_inducing self /\
  shape1 param_sqrt = VariationalGaussian.num_inducing self.

End Quantities.

Definition positive_semidefinite (a : Array) : Prop :=
  possemidef (shape0 a) (entry a).

Definition diagonal_nonzero (a : Array) : Prop :=
  diag_nonzero (shape0 a) (entry a).

(** ** The textbook closed form of the KL divergence *)




(** ** Concrete inputs *)

(** A prior with the constant kernel k(x, y) = 1 and the zero mean. *)
Definition constant_kernel : Kernel :=
  mkKernel (fun _ _ _ _ => 1) (fun _ _ _ _ _ => 1).

Definition zero_mean : MeanFunction := mkMeanFunction (fun _ _ _ => 0).

Definition ex_prior : Prior.t := Prior.mk constant_kernel zero_mean.

(** One inducing input at 0, and two inducing inputs at 0 and 1. *)
Definition ex_z1 : Array := mkArray 1 1 (fun _ _ => 0).

Definition ex_z2 : Array := mkArray 2 1 (fun i _ => INR i).

(** One test input at 1. *)
Definition ex_t1 : Array := mkArray 1 1 (fun _ _ => 1).

(** Families with jitter 1: one inducing point; two inducing points and
    [diag=True]; and one with jitter 0. *)
Definition ex_family1 : VariationalGaussian.t :=
  VariationalGaussian.mk ex_prior ex_z1 "Gaussian" None None false 1 1.

Definition ex_family2_diag : VariationalGaussian.t :=
  VariationalGaussian.mk ex_prior ex_z2 "Gaussian" None None true 1 2.


(** A second instance with the prior, jitter and [num_inducing] of
    [ex_family1] and other stored arrays. *)
Definition ex_family1_other : VariationalGaussian.t :=
  VariationalGaussian.mk ex_prior ex_t1 "Other"
    (Some (mkArray 1 1 (fun _ _ => 5))) (Some (mkArray 1 1 (fun _ _ => 7)))
    true 1 1.

(** mu = [[3]] and sqrt = [[2]] for one inducing point. *)
Definition ex_params1 : Params.t :=
  Params.mk [] []
    (Params.mk_variational_family ex_z1
       (mkArray 1 1 (fun _ _ => 3)) (mkArray 1 1 (fun _ _ => 2))).





(** For two inducing points: mu = 0 and the dense lower-triangular root
    [[1, 0], [1, 1]]. *)
Definition ex_dense_root : Array :=
  mkArray 2 2 (fun i j => if (j <=? i)%nat then 1 else 0).

Definition ex_params2 : Params.t :=
  Params.mk [] []
    (Params.mk_variational_family ex_z2 (zeros2 2 1) ex_dense_root).

(** ** The transforms of the root covariance *)

(** [jnp.diagflat v] for a one-dimensional [v]: the square matrix with
    [v] on its diagonal. *)
Definition diagflat (v : Vector) : Array :=
  mkArray (size v) (size v) (fun i j => if (i =? j)%nat then coord v i else 0).

(** [jnp.diagonal a]: the main diagonal of a two-dimensional array. *)
Definition diagonal (a : Array) : Vector :=
  mkVector (Nat.min (shape0 a) (shape1 a)) (fun i => entry a i i).

(** [dx.Lambda(forward=..., inverse=...)]. *)
Record Lambda (A B : Type) := mkLambda {
  forward : A -> B;
  inverse : B -> A
}.

Arguments mkLambda {A B} _ _.
Arguments forward {A B} _ _.
Arguments inverse {A B} _ _.

(** The [Diagonal] bijector of the source. *)
Definition DiagonalLambda : Lambda Vector Array := mkLambda diagflat diagonal.

(** [dx.Chain([f, g])]: forward applies [g] first and then [f]; inverse
    undoes them in the opposite order. *)
Definition chain2 {A B C : Type} (f : Lambda B C) (g : Lambda A B) : Lambda A C :=
  mkLambda (fun x => forward f (forward g x)) (fun y => inverse g (inverse f y)).

Definition vmap (f : R -> R) (v : Vector) : Vector :=
  mkVector (size v) (fun i => f (coord v i)).

(** Modelled from the spec: the softplus transform of [config], entry by
    entry log(1 + exp x), with inverse log(exp y - 1). *)
Definition SoftplusLambda : Lambda Vector Vector :=
  mkLambda (vmap (fun x => ln (1 + exp x))) (vmap (fun y => ln (exp y - 1))).

(** [FillDiagonal = dx.Chain([Diagonal, Softplus])], as a function. *)
Definition FillDiagonalLambda : Lambda Vector Array :=
  chain2 DiagonalLambda SoftplusLambda.

(** A square array whose entries off the diagonal are 0. *)
Definition is_diagonal (a : Array) : Prop :=
  forall i j, (i < shape0 a)%nat -> (j < shape1 a)%nat -> i <> j -> entry a i j = 0.

(** ** Further concrete inputs *)





(** ** The closed forms of the specification, entry by entry *)

(** [solves M N L X Y]: L X = Y for an M by M matrix L and M by N
    matrices X and Y. *)
Definition solves (M N : nat) (L X Y : Mat) : Prop :=
  forall i j, (i < M)%nat -> (j < N)%nat ->
    rsum M (fun k => L i k * X k j) = Y i j.

(** The predictive mean in the words of the specification, for M inducing
    points: mu_t + W^T d, where W is B and d is mu - mu_z for the
    unwhitened family, and W is A and d is mu for the whitened one. *)
Definition closed_form_mean (M : nat) (mu_t : nat -> R) (W : Mat)
  (d : nat -> R) (i : nat) : R :=
  mu_t i + rsum M (fun k => W k i * d k).

(** The predictive covariance in the words of the specification:
    Ktt - A^T A + C C^T + jitter I, with C = W^T sqrt. *)
Definition closed_form_covariance (M : nat) (Ktt A W root : Mat)
  (jitter : R) (i j : nat) : R :=
  let C := fun p l => rsum M (fun k => W k p * root k l) in
  Ktt i j - rsum M (fun k => A k i * A k j) + rsum M (fun l => C i l * C j l)
  + (if (i =? j)%nat then jitter else 0).




(** ** Concrete inputs with two inducing and two test points *)






(** ** The methods when the factor is NaN *)

(** [jnp.linalg.cholesky] raises nothing when the factorisation fails:
    it returns an array of NaN, and the methods above go on computing with
    it ([prior_kl] returns its scalar and [predict] returns its function
    unconditionally).  The definitions of this module follow the methods
    there.  A number is a real or NaN; NaN propagates through every
    arithmetic operation, as in IEEE arithmetic.  What the methods read
    (the dictionary, the kernel matrices, the prior means, the jittered
    Kzz) stays an array of reals and enters through [of_array]. *)
Module NaN.

Definition number := option R.

Definition nan : number := None.

Definition lift1 (f : R -> R) (x : number) : number :=
  match x with
  | Some a => Some (f a)
  | None => None
  end.

Definition lift2 (f : R -> R -> R) (x y : number) : number :=
  match x, y with
  | Some a, Some b => Some (f a b)
  | _, _ => None
  end.

Fixpoint nsum (n : nat) (f : nat -> number) : number :=
  match n with
  | O => Some 0
  | S k => lift2 Rplus (nsum k f) (f k)
  end.

Definition nmat := nat -> nat -> number.

(** Forward and backward substitution, as above, on numbers. *)
Fixpoint forward_subst (n : nat) (L : nmat) (b : nat -> number) : nat -> number :=
  match n with
  | O => fun _ => Some 0
  | S n' =>
      let x0 := lift2 Rdiv (b O) (L O O) in
      let rest :=
        forward_subst n' (fun i j => L (S i) (S j))
          (fun i => lift2 Rminus (b (S i)) (lift2 Rmult (L (S i) O) x0)) in
      fun i => match i with O => x0 | S i' => rest i' end
  end.

Fixpoint back_subst (n : nat) (U : nmat) (b : nat -> number) : nat -> number :=
  match n with
  | O => fun _ => Some 0
  | S n' =>
      let rest :=
        back_subst n' (fun i j => U (S i) (S j)) (fun i => b (S i)) in
      let x0 :=
        lift2 Rdiv
          (lift2 Rminus (b O) (nsum n' (fun k => lift2 Rmult (U O (S k)) (rest k))))
          (U O O) in
      fun i => match i with O => x0 | S i' => rest i' end
  end.

Record narray := mknarray {
  nshape0 : nat;
  nshape1 : nat;
  nentry : nmat
}.

Record nvector := mknvector {
  nsize : nat;
  ncoord : nat -> number
}.

Definition of_array (a : Array) : narray :=
  mknarray (shape0 a) (shape1 a) (fun i j => Some (entry a i j)).

Definition matmul (a b : narray) : narray :=
  mknarray (nshape0 a) (nshape1 b)
    (fun i j => nsum (nshape1 a) (fun l => lift2 Rmult (nentry a i l) (nentry b l j))).

Definition transpose (a : narray) : narray :=
  mknarray (nshape1 a) (nshape0 a) (fun i j => nentry a j i).

Definition add (a b : narray) : narray :=
  mknarray (nshape0 a) (nshape1 a)
    (fun i j => lift2 Rplus (nentry a i j) (nentry b i j)).

Definition sub (a b : narray) : narray :=
  mknarray (nshape0 a) (nshape1 a)
    (fun i j => lift2 Rminus (nentry a i j) (nentry b i j)).

Definition tril (a : narray) : narray :=
  mknarray (nshape0 a) (nshape1 a)
    (fun i j => if (j <=? i)%nat then nentry a i j else Some 0).

Definition squeeze (a : narray) : nvector :=
  mknvector (nshape0 a) (fun i => nentry a i O).

Definition atleast_1d (v : nvector) : nvector := v.

Definition column (v : nvector) : narray :=
  mknarray (nsize v) 1 (fun i _ => ncoord v i).

Definition vsub (u v : nvector) : nvector :=
  mknvector (nsize u) (fun i => lift2 Rminus (ncoord u i) (ncoord v i)).

(** [jnp.linalg.cholesky a]: the factor when the factorisation succeeds,
    and an array of NaN of the shape of [a] when it does not. *)
Definition cholesky (a : Array) : narray :=
  match cholesky a with
  | Some L => of_array L
  | None => mknarray (shape0 a) (shape1 a) (fun _ _ => nan)
  end.

Definition solve_triangular (a b : narray) (lower : bool) : narray :=
  mknarray (nshape0 b) (nshape1 b)
    (fun i j =>
       (if lower then forward_subst else back_subst)
         (nshape0 a) (nentry a) (fun k => nentry b k j) i).

Record MultivariateNormalFromScale := mkMvnScale {
  loc : nvector;
  scale : narray
}.

Definition MultivariateNormalTri (loc : nvector) (scale_tri : narray)
  : MultivariateNormalFromScale :=
  mkMvnScale loc (tril scale_tri).

Definition log_abs_det (s : narray) : number :=
  nsum (nshape0 s) (fun i => lift1 (fun x => ln (Rabs x)) (nentry s i i)).

Definition squared_frobenius_norm (a : narray) : number :=
  nsum (nshape0 a)
    (fun i => nsum (nshape1 a) (fun j => lift2 Rmult (nentry a i j) (nentry a i j))).

Definition kl_divergence (qu pu : MultivariateNormalFromScale) : number :=
  let num_dims := nsize (loc qu) in
  let diff_log_abs_det :=
    lift2 Rminus (log_abs_det (scale pu)) (log_abs_det (scale qu)) in
  let scale_ratio := solve_triangular (scale pu) (scale qu) true in
  let diff_loc := solve_triangular (scale pu) (column (vsub (loc qu) (loc pu))) true in
  lift2 Rplus diff_log_abs_det
    (lift1 (fun x => x / 2)
       (lift2 Rplus
          (lift2 Rplus (Some (- INR num_dims)) (squared_frobenius_norm scale_ratio))
          (squared_frobenius_norm diff_loc))).

Record MultivariateNormalFullCovariance := mkMvnFullCov {
  mean : nvector;
  covariance : narray
}.

Module VariationalGaussian.

Definition prior_kl (self : VariationalGaussian.t) (params : Params.t) : number :=
  let mu := of_array (param_mu params) in
  let sqrt := of_array (param_sqrt params) in
  let μz := of_array (prior_mean_z self params) in
  let Kzz := VariationalGaussian.jittered_Kzz self params in
  let Lz := cholesky Kzz in
  let qu := MultivariateNormalTri (atleast_1d (squeeze mu)) sqrt in
  let pu := MultivariateNormalTri (atleast_1d (squeeze μz)) Lz in
  kl_divergence qu pu.

Definition predict (self : VariationalGaussian.t) (params : Params.t)
  : Array -> MultivariateNormalFullCovariance :=
  let mu := of_array (param_mu params) in
  let sqrt := of_array (param_sqrt params) in
  let Kzz := VariationalGaussian.jittered_Kzz self params in
  let Lz := cholesky Kzz in
  let μz := of_array (prior_mean_z self params) in
  fun test_inputs =>
    let t := test_inputs in
    let n_test := shape0 t in
    let Ktt := of_array (prior_Ktt self params t) in
    let Kzt := of_array (prior_Kzt self params t) in
    let μt := of_array (prior_mean_t self params t) in
    let Lz_inv_Kzt := solve_triangular Lz Kzt true in
    let Kzz_inv_Kzt := solve_triangular (transpose Lz) Lz_inv_Kzt false in
    let Ktz_Kzz_inv_sqrt := matmul (transpose Kzz_inv_Kzt) sqrt in
    let mean := add μt (matmul (transpose Kzz_inv_Kzt) (sub mu μz)) in
    let covariance :=
      add (sub Ktt (matmul (transpose Lz_inv_Kzt) Lz_inv_Kzt))
          (matmul Ktz_Kzz_inv_sqrt (transpose Ktz_Kzz_inv_sqrt)) in
    let covariance :=
      add covariance
          (of_array (mul_scalar (utils.I n_test) (VariationalGaussian.jitter self))) in
    mkMvnFullCov (atleast_1d (squeeze mean)) covariance.

End VariationalGaussian.

Module WhitenedVariationalGaussian.

Definition predict (self : WhitenedVariationalGaussian.t) (params : Params.t)
  : Array -> MultivariateNormalFullCovariance :=
  let mu := of_array (param_mu params) in
  let sqrt := of_array (param_sqrt params) in
  let Kzz := VariationalGaussian.jittered_Kzz self params in
  let Lz := cholesky Kzz in
  fun test_inputs =>
    let t := test_inputs in
    let n_test := shape0 t in
    let Ktt := of_array (prior_Ktt self params t) in
    let Kzt := of_array (prior_Kzt self params t) in
    let μt := of_array (prior_mean_t self params t) in
    let Lz_inv_Kzt := solve_triangular Lz Kzt true in
    let Ktz_Lz_invT_sqrt := matmul (transpose Lz_inv_Kzt) sqrt in
    let mean := add μt (matmul (transpose Lz_inv_Kzt) mu) in
    let covariance :=
      add (sub Ktt (matmul (transpose Lz_inv_Kzt) Lz_inv_Kzt))
          (matmul Ktz_Lz_invT_sqrt (transpose Ktz_Lz_invT_sqrt)) in
    let covariance :=
      add covariance
          (of_array (mul_scalar (utils.I n_test) (VariationalGaussian.jitter self))) in
    mkMvnFullCov (atleast_1d (squeeze mean)) covariance.

End WhitenedVariationalGaussian.

End NaN.

(** An array, or a vector, of numbers none of which is NaN, and the array
    of reals it holds. *)
Definition finite_as (x : NaN.narray) (a : Array) : Prop :=
  NaN.nshape0 x = shape0 a /\ NaN.nshape1 x = shape1 a
  /\ forall i j, NaN.nentry x i j = Some (entry a i j).

Definition finite_vector_as (v : NaN.nvector) (u : Vector) : Prop :=
  NaN.nsize v = size u /\ forall i, NaN.ncoord v i = Some (coord u i).

(** * Properties *)

(** ** Sums *)

Lemma rsum_ext n f g :
  (forall k, (k < n)%nat -> f k = g k) -> rsum n f = rsum n g.
Proof.
  induction n as [|n IH]; intros H; simpl; [reflexivity|].
  rewrite IH by (intros; apply H; lia).
  rewrite H by lia. reflexivity.
Qed.

Lemma rsum_zero n f :
  (forall k, (k < n)%nat -> f k = 0) -> rsum n f = 0.
Proof.
  induction n as [|n IH]; intros H; simpl; [reflexivity|].
  rewrite IH by (intros; apply H; lia).
  rewrite H by lia. lra.
Qed.

Lemma rsum_plus n f g :
  rsum n (fun k => f k + g k) = rsum n f + rsum n g.
Proof. induction n as [|n IH]; simpl; [|rewrite IH]; lra. Qed.

Lemma rsum_minus n f g :
  rsum n (fun k => f k - g k) = rsum n f - rsum n g.
Proof. induction n as [|n IH]; simpl; [|rewrite IH]; lra. Qed.

Lemma rsum_scal_l n c f :
  rsum n (fun k => c * f k) = c * rsum n f.
Proof. induction n as [|n IH]; simpl; [|rewrite IH]; lra. Qed.

Lemma rsum_scal_r n c f :
  rsum n (fun k => f k * c) = rsum n f * c.
Proof. induction n as [|n IH]; simpl; [|rewrite IH]; lra. Qed.

Lemma rsum_opp n f :
  rsum n (fun k => - f k) = - rsum n f.
Proof. induction n as [|n IH]; simpl; [|rewrite IH]; lra. Qed.

Lemma rsum_shift n f :
  rsum (S n) f = f O + rsum n (fun k => f (S k)).
Proof.
  induction n as [|n IH]; [simpl; lra|].
  change (rsum (S (S n)) f) with (rsum (S n) f + f (S n)).
  rewrite IH. simpl. lra.
Qed.

Lemma rsum_swap m n (f : nat -> nat -> R) :
  rsum m (fun i => rsum n (fun j => f i j)) =
  rsum n (fun j => rsum m (fun i => f i j)).
Proof.
  induction m as [|m IH]; simpl.
  - symmetry. apply rsum_zero. reflexivity.
  - rewrite IH, <- rsum_plus. reflexivity.
Qed.

Lemma rsum_nonneg n f :
  (forall k, (k < n)%nat -> 0 <= f k) -> 0 <= rsum n f.
Proof.
  induction n as [|n IH]; intros H; simpl; [lra|].
  assert (0 <= rsum n f) by (apply IH; intros; apply H; lia).
  assert (0 <= f n) by (apply H; lia). lra.
Qed.


Lemma rsum_ge_term n f i :
  (forall k, (k < n)%nat -> 0 <= f k) -> (i < n)%nat -> f i <= rsum n f.
Proof.
  induction n as [|n IH]; intros H Hi; [lia|]. simpl.
  assert (0 <= rsum n f) by (apply rsum_nonneg; intros; apply H; lia).
  assert (0 <= f n) by (apply H; lia).
  destruct (Nat.eq_dec i n) as [->|Hne]; [lra|].
  assert (f i <= rsum n f) by (apply IH; [intros; apply H|]; lia). lra.
Qed.

Lemma rsum_delta n i (f : nat -> R) :
  (i < n)%nat -> rsum n (fun k => if Nat.eqb k i then f k else 0) = f i.
Proof.
  induction n as [|n IH]; intros Hi; [lia|]. simpl.
  destruct (Nat.eq_dec i n) as [->|Hne].
  - rewrite Nat.eqb_refl, rsum_zero; [lra|].
    intros k Hk. destruct (Nat.eqb_spec k n); [lia|reflexivity].
  - rewrite IH by lia.
    destruct (Nat.eqb_spec n i); [lia|lra].
Qed.

Lemma rsum_app m n f :
  rsum (m + n) f = rsum m f + rsum n (fun k => f (m + k)%nat).
Proof.
  induction n as [|n IH]; simpl.
  - rewrite Nat.add_0_r. lra.
  - rewrite Nat.add_succ_r. simpl. rewrite IH. lra.
Qed.

Lemma rsum_mult m n f g :
  rsum m f * rsum n g = rsum m (fun i => rsum n (fun j => f i * g j)).
Proof.
  rewrite <- rsum_scal_r. apply rsum_ext; intros i _.
  rewrite rsum_scal_l. reflexivity.
Qed.

Lemma rsum_sq_zero n f :
  rsum n (fun k => f k * f k) = 0 -> forall k, (k < n)%nat -> f k = 0.
Proof.
  induction n as [|n IH]; intros H k Hk; [lia|]. simpl in H.
  assert (0 <= rsum n (fun k => f k * f k))
    by (apply rsum_nonneg; intros; nra).
  assert (0 <= f n * f n) by nra.
  destruct (Nat.eq_dec k n) as [->|Hne]; [nra|].
  apply IH; [lra|lia].
Qed.

(** ** Quadratic forms *)

(** Splitting off the first coordinate. *)
Lemma qf_S n K x :
  qf (S n) K x =
  x O * K O O * x O
  + x O * rsum n (fun j => K O (S j) * x (S j))
  + rsum n (fun i => x (S i) * K (S i) O) * x O
  + qf n (fun i j => K (S i) (S j)) (fun i => x (S i)).
Proof.
  unfold qf. rewrite rsum_shift. rewrite rsum_shift.
  rewrite (rsum_ext n (fun k => rsum (S n) (fun j => x (S k) * K (S k) j * x j))
             (fun k => x (S k) * K (S k) O * x O
                       + rsum n (fun j => x (S k) * K (S k) (S j) * x (S j))))
    by (intros; apply rsum_shift).
  rewrite rsum_plus, <- rsum_scal_l, rsum_scal_r.
  rewrite (rsum_ext n (fun k => x O * K O (S k) * x (S k))
             (fun k => x O * (K O (S k) * x (S k)))) by (intros; ring).
  ring.
Qed.

Lemma qf_ext n K K' x x' :
  (forall i j, (i < n)%nat -> (j < n)%nat -> K i j = K' i j) ->
  (forall i, (i < n)%nat -> x i = x' i) ->
  qf n K x = qf n K' x'.
Proof.
  intros HK Hx. unfold qf. apply rsum_ext; intros i Hi.
  apply rsum_ext; intros j Hj. rewrite HK, !Hx by assumption. reflexivity.
Qed.

Lemma qf_symmetrize n K x : qf n (symmetrize K) x = qf n K x.
Proof.
  unfold qf, symmetrize.
  rewrite (rsum_ext n _
     (fun i => rsum n (fun j => x i * K i j * x j) / 2
               + rsum n (fun j => x j * K j i * x i) / 2)).
  - rewrite rsum_plus. unfold Rdiv. rewrite !rsum_scal_r.
    rewrite (rsum_swap n n (fun i j => x j * K j i * x i)). lra.
  - intros i _. unfold Rdiv. rewrite <- !rsum_scal_r, <- rsum_plus.
    apply rsum_ext; intros j _. lra.
Qed.

Lemma qf_schur n K y :
  qf n (schur K) y =
  qf n (fun i j => K (S i) (S j)) y
  - rsum n (fun i => K (S i) O * y i) * rsum n (fun i => K (S i) O * y i) / K O O.
Proof.
  unfold qf, schur.
  unfold Rdiv at 2. rewrite rsum_mult, <- rsum_scal_r, <- rsum_minus.
  apply rsum_ext; intros i _.
  rewrite <- rsum_scal_r, <- rsum_minus.
  apply rsum_ext; intros j _. unfold Rdiv. ring.
Qed.

(** Completing the square on the first coordinate. *)
Lemma qf_complete_square n K x :
  msym (S n) K -> K O O <> 0 ->
  qf (S n) K x =
  K O O * (x O + rsum n (fun i => K (S i) O * x (S i)) / K O O)
        * (x O + rsum n (fun i => K (S i) O * x (S i)) / K O O)
  + qf n (schur K) (fun i => x (S i)).
Proof.
  intros Hs Ha. rewrite qf_S, qf_schur.
  rewrite (rsum_ext n (fun j => K O (S j) * x (S j))
             (fun i => K (S i) O * x (S i)))
    by (intros; rewrite (Hs O (S k)) by lia; reflexivity).
  rewrite (rsum_ext n (fun i => x (S i) * K (S i) O)
             (fun i => K (S i) O * x (S i))) by (intros; ring).
  field. exact Ha.
Qed.

Lemma msym_schur n K : msym (S n) K -> msym n (schur K).
Proof.
  intros Hs i j Hi Hj. unfold schur.
  rewrite (Hs (S i) (S j)) by lia. lra.
Qed.

Lemma msym_symmetrize n K : msym n (symmetrize K).
Proof. intros i j _ _. unfold symmetrize. lra. Qed.

Lemma symmetrize_msym n K i j :
  msym n K -> (i < n)%nat -> (j < n)%nat -> symmetrize K i j = K i j.
Proof. intros Hs Hi Hj. unfold symmetrize. rewrite (Hs j i) by lia. lra. Qed.

(** ** The Cholesky factorisation *)

Lemma qf_zero_vec n K x :
  (forall i, (i < n)%nat -> x i = 0) -> qf n K x = 0.
Proof.
  intros Hx. unfold qf. apply rsum_zero; intros i Hi.
  apply rsum_zero; intros j Hj. rewrite (Hx i Hi). ring.
Qed.

Lemma posdef_pivot n K : posdef (S n) K -> 0 < K O O.
Proof.
  intros Hp.
  pose (e := fun i : nat => match i with O => 1 | S _ => 0 end).
  assert (He : nonzero_vec (S n) e) by (exists O; split; [lia|simpl; lra]).
  specialize (Hp e He). rewrite qf_S in Hp.
  rewrite (rsum_zero n (fun j => K O (S j) * e (S j))) in Hp
    by (intros; simpl; ring).
  rewrite (rsum_zero n (fun i => e (S i) * K (S i) O)) in Hp
    by (intros; simpl; ring).
  rewrite (qf_zero_vec n _ (fun i => e (S i))) in Hp by reflexivity.
  simpl in Hp. lra.
Qed.

Lemma posdef_schur n K :
  msym (S n) K -> posdef (S n) K -> posdef n (schur K).
Proof.
  intros Hs Hp y [i [Hi Hy]].
  pose proof (posdef_pivot n K Hp) as Ha.
  pose (x := fun i : nat =>
               match i with
               | O => - (rsum n (fun i => K (S i) O * y i) / K O O)
               | S i' => y i'
               end).
  assert (Hx : nonzero_vec (S n) x) by (exists (S i); split; [lia|exact Hy]).
  specialize (Hp x Hx).
  rewrite (qf_complete_square n K x Hs) in Hp by lra.
  simpl in Hp.
  replace (qf n (schur K) y) with
    (K O O * (- (rsum n (fun i => K (S i) O * y i) / K O O)
              + rsum n (fun i => K (S i) O * y i) / K O O)
           * (- (rsum n (fun i => K (S i) O * y i) / K O O)
              + rsum n (fun i => K (S i) O * y i) / K O O)
     + qf n (schur K) (fun i => y i)); [exact Hp|].
  replace (qf n (schur K) (fun i => y i)) with (qf n (schur K) y) by reflexivity.
  ring.
Qed.

(** A positive-definite symmetric matrix is factorised. *)
Lemma chol_complete n : forall K,
  msym n K -> posdef n K -> exists L, chol n K = Some L.
Proof.
  induction n as [|n IH]; intros K Hs Hp; simpl.
  - eexists; reflexivity.
  - pose proof (posdef_pivot n K Hp) as Ha.
    destruct (Rlt_dec 0 (K O O)) as [_|Hn]; [|contradiction].
    destruct (IH (schur K) (msym_schur n K Hs) (posdef_schur n K Hs Hp))
      as [L' HL'].
    rewrite HL'. eexists; reflexivity.
Qed.

(** Only positive-definite matrices are factorised. *)
Lemma chol_sound n : forall K L,
  msym n K -> chol n K = Some L -> posdef n K.
Proof.
  induction n as [|n IH]; intros K L Hs HL x [i [Hi Hx]]; [lia|].
  simpl in HL.
  destruct (Rlt_dec 0 (K O O)) as [Ha|]; [|discriminate].
  destruct (chol n (schur K)) as [L'|] eqn:HL'; [|discriminate].
  pose proof (IH (schur K) L' (msym_schur n K Hs) HL') as Hp'.
  rewrite (qf_complete_square n K x Hs) by lra.
  set (c := x O + rsum n (fun i => K (S i) O * x (S i)) / K O O).
  destruct (Req_dec (qf n (schur K) (fun i => x (S i))) 0) as [Hz|Hnz].
  - (* the tail of x vanishes, so x 0 does not *)
    assert (Htail : forall k, (k < n)%nat -> x (S k) = 0).
    { intros k Hk. destruct (Req_dec (x (S k)) 0) as [|Hk0]; [assumption|].
      assert (0 < qf n (schur K) (fun i => x (S i)))
        by (apply Hp'; exists k; split; assumption).
      lra. }
    assert (Hi0 : i = O).
    { destruct i as [|i']; [reflexivity|].
      exfalso. apply Hx. apply Htail. lia. }
    subst i.
    assert (Hc : c = x O).
    { unfold c. rewrite (rsum_zero n (fun i => K (S i) O * x (S i))).
      - unfold Rdiv. ring.
      - intros k Hk. rewrite (Htail k Hk). ring. }
    rewrite Hz, Hc.
    assert (0 < x O * x O) by nra. nra.
  - assert (0 < qf n (schur K) (fun i => x (S i))).
    { apply Hp'.
      destruct (Classical_Prop.classic (nonzero_vec n (fun i => x (S i))))
        as [Hnv|Hnv]; [exact Hnv|].
      exfalso. apply Hnz. apply qf_zero_vec. intros k Hk.
      destruct (Req_dec (x (S k)) 0) as [|Hk0]; [assumption|].
      exfalso. apply Hnv. exists k. split; assumption. }
    assert (0 <= c * c) by nra. nra.
Qed.

Lemma chol_lower_tri n : forall K L,
  chol n K = Some L -> forall i j, (i < j)%nat -> L i j = 0.
Proof.
  induction n as [|n IH]; intros K L HL i j Hij; simpl in HL.
  - inversion HL; reflexivity.
  - destruct (Rlt_dec 0 (K O O)) as [Ha|]; [|discriminate].
    destruct (chol n (schur K)) as [L'|] eqn:HL'; [|discriminate].
    inversion HL; subst L; clear HL. unfold chol_assemble.
    destruct i as [|i'], j as [|j']; try lia; [reflexivity|].
    apply (IH _ _ HL'). lia.
Qed.

Lemma chol_diag_pos n : forall K L,
  chol n K = Some L -> diag_pos n L.
Proof.
  induction n as [|n IH]; intros K L HL i Hi; [lia|]. simpl in HL.
  destruct (Rlt_dec 0 (K O O)) as [Ha|]; [|discriminate].
  destruct (chol n (schur K)) as [L'|] eqn:HL'; [|discriminate].
  inversion HL; subst L; clear HL. unfold chol_assemble.
  destruct i as [|i'].
  - apply sqrt_lt_R0. exact Ha.
  - apply (IH _ _ HL'). lia.
Qed.

(** The factor times its transpose gives back the matrix. *)
Lemma chol_factor n : forall K L,
  msym n K -> chol n K = Some L ->
  forall i j, (i < n)%nat -> (j < n)%nat -> mmul n L (mtrans L) i j = K i j.
Proof.
  induction n as [|n IH]; intros K L Hs HL i j Hi Hj; [lia|]. simpl in HL.
  destruct (Rlt_dec 0 (K O O)) as [Ha|]; [|discriminate].
  destruct (chol n (schur K)) as [L'|] eqn:HL'; [|discriminate].
  inversion HL; subst L; clear HL.
  pose proof (sqrt_lt_R0 _ Ha) as Hsq.
  pose proof (sqrt_def (K O O) (Rlt_le _ _ Ha)) as Hsq2.
  unfold mmul, mtrans. rewrite rsum_shift.
  destruct i as [|i'], j as [|j']; unfold chol_assemble at 1 2.
  - rewrite rsum_zero by (intros; unfold chol_assemble; ring). lra.
  - rewrite rsum_zero by (intros; unfold chol_assemble; ring).
    rewrite (Hs O (S j')) by lia. field. lra.
  - rewrite rsum_zero by (intros; unfold chol_assemble; ring). field. lra.
  - rewrite (rsum_ext n _ (fun l => L' i' l * L' j' l))
      by (intros; reflexivity).
    pose proof (IH (schur K) L' (msym_schur n K Hs) HL' i' j') as HI.
    unfold mmul, mtrans in HI. rewrite HI by lia. unfold schur.
    replace (K O O) with (sqrt (K O O) * sqrt (K O O)) at 3. field. lra.
Qed.

(** ** Triangular solves *)

Lemma upper_tri_mtrans n L : lower_tri n L -> upper_tri n (mtrans L).
Proof. intros H i j Hji Hi. unfold mtrans. apply H; assumption. Qed.

Lemma lower_tri_tail n L :
  lower_tri (S n) L -> lower_tri n (fun i j => L (S i) (S j)).
Proof. intros H i j Hij Hj. apply H; lia. Qed.

Lemma diag_nonzero_tail n L :
  diag_nonzero (S n) L -> diag_nonzero n (fun i j => L (S i) (S j)).
Proof. intros H i Hi. apply H; lia. Qed.

Lemma diag_pos_nonzero n L : diag_pos n L -> diag_nonzero n L.
Proof. intros H i Hi. specialize (H i Hi). lra. Qed.

(** Forward substitution solves the lower-triangular system. *)
Lemma forward_subst_correct n : forall L b,
  lower_tri n L -> diag_nonzero n L ->
  forall i, (i < n)%nat ->
    rsum n (fun k => L i k * forward_subst n L b k) = b i.
Proof.
  induction n as [|n IH]; intros L b Hl Hd i Hi; [lia|].
  rewrite rsum_shift.
  change (forward_subst (S n) L b O) with (b O / L O O).
  set (b' := fun i => b (S i) - L (S i) O * (b O / L O O)).
  rewrite (rsum_ext n (fun k => L i (S k) * forward_subst (S n) L b (S k))
             (fun k => L i (S k)
                       * forward_subst n (fun i j => L (S i) (S j)) b' k))
    by (intros; reflexivity).
  destruct i as [|i'].
  - rewrite rsum_zero by (intros; rewrite Hl by lia; ring).
    field. apply Hd. lia.
  - rewrite (IH (fun i j => L (S i) (S j)) b'
               (lower_tri_tail n L Hl) (diag_nonzero_tail n L Hd) i')
      by lia.
    unfold b'. ring.
Qed.

(** Backward substitution solves the upper-triangular system. *)
Lemma back_subst_correct n : forall U b,
  upper_tri n U -> diag_nonzero n U ->
  forall i, (i < n)%nat ->
    rsum n (fun k => U i k * back_subst n U b k) = b i.
Proof.
  induction n as [|n IH]; intros U b Hu Hd i Hi; [lia|].
  rewrite rsum_shift.
  set (rest := back_subst n (fun i j => U (S i) (S j)) (fun i => b (S i))).
  change (back_subst (S n) U b O)
    with ((b O - rsum n (fun k => U O (S k) * rest k)) / U O O).
  rewrite (rsum_ext n (fun k => U i (S k) * back_subst (S n) U b (S k))
             (fun k => U i (S k) * rest k))
    by (intros; reflexivity).
  destruct i as [|i'].
  - field. apply Hd. lia.
  - rewrite (Hu (S i') O) by lia. unfold rest.
    rewrite (IH (fun i j => U (S i) (S j)) (fun i => b (S i))).
    + ring.
    + intros p q Hqp Hp. apply Hu; lia.
    + apply diag_nonzero_tail. exact Hd.
    + lia.
Qed.

Lemma forward_subst_ext n : forall L b b',
  (forall i, (i < n)%nat -> b i = b' i) ->
  forall i, (i < n)%nat -> forward_subst n L b i = forward_subst n L b' i.
Proof.
  induction n as [|n IH]; intros L b b' Hb i Hi; [lia|]. simpl.
  destruct i as [|i'].
  - rewrite (Hb O) by lia. reflexivity.
  - apply IH; [|lia]. intros k Hk.
    rewrite (Hb O), (Hb (S k)) by lia. reflexivity.
Qed.

Lemma forward_subst_zero n : forall L b,
  (forall i, (i < n)%nat -> b i = 0) ->
  forall i, (i < n)%nat -> forward_subst n L b i = 0.
Proof.
  induction n as [|n IH]; intros L b Hb i Hi; [lia|]. simpl.
  destruct i as [|i'].
  - rewrite (Hb O) by lia. unfold Rdiv. ring.
  - apply IH; [|lia]. intros k Hk.
    rewrite (Hb O), (Hb (S k)) by lia. unfold Rdiv. ring.
Qed.


(** Two lower-triangular roots of the same matrix differ by signs: solving
    one against the other gives a diagonal matrix of entries whose square
    is 1. *)
Lemma same_gram_solve n : forall P Q,
  lower_tri n P -> lower_tri n Q -> diag_nonzero n P ->
  (forall i j, (i < n)%nat -> (j < n)%nat ->
     mmul n Q (mtrans Q) i j = mmul n P (mtrans P) i j) ->
  forall i j, (i < n)%nat -> (j < n)%nat ->
    forward_subst n P (fun k => Q k j) i
    = (if (i =? j)%nat then Q i i / P i i else 0)
    /\ Q i i * Q i i = P i i * P i i.
Proof.
  induction n as [|n IH]; intros P Q HP HQ Hd Hg i j Hi Hj; [lia|].
  assert (HP0 : P O O <> 0) by (apply Hd; lia).
  (* row 0 of the two products *)
  assert (H00 : Q O O * Q O O = P O O * P O O).
  { pose proof (Hg O O ltac:(lia) ltac:(lia)) as H.
    unfold mmul, mtrans in H. rewrite !rsum_shift in H.
    rewrite !rsum_zero in H; [lra| |].
    - intros k Hk. rewrite (HP O (S k)) by lia. ring.
    - intros k Hk. rewrite (HQ O (S k)) by lia. ring. }
  assert (HQ0 : Q O O <> 0) by (intro Hq; rewrite Hq in H00; nra).
  assert (Hc0 : forall k, (k < n)%nat -> Q (S k) O * Q O O = P (S k) O * P O O).
  { intros k Hk. pose proof (Hg (S k) O ltac:(lia) ltac:(lia)) as H.
    unfold mmul, mtrans in H. rewrite !rsum_shift in H.
    rewrite !rsum_zero in H; [lra| |].
    - intros l Hl. rewrite (HP O (S l)) by lia. ring.
    - intros l Hl. rewrite (HQ O (S l)) by lia. ring. }
  assert (Hcc : forall k l, (k < n)%nat -> (l < n)%nat ->
            Q (S k) O * Q (S l) O = P (S k) O * P (S l) O).
  { intros k l Hk Hl.
    pose proof (Hc0 k Hk) as Hk0. pose proof (Hc0 l Hl) as Hl0.
    assert (E : Q (S k) O * Q (S l) O * (Q O O * Q O O)
                = P (S k) O * P (S l) O * (P O O * P O O)).
    { replace (Q (S k) O * Q (S l) O * (Q O O * Q O O))
        with ((Q (S k) O * Q O O) * (Q (S l) O * Q O O)) by ring.
      rewrite Hk0, Hl0. ring. }
    rewrite H00 in E.
    apply (Rmult_eq_reg_r (P O O * P O O)); [exact E|].
    apply Rmult_integral_contrapositive_currified; assumption. }
  assert (Hg' : forall k l, (k < n)%nat -> (l < n)%nat ->
            mmul n (fun i j => Q (S i) (S j)) (mtrans (fun i j => Q (S i) (S j))) k l
            = mmul n (fun i j => P (S i) (S j)) (mtrans (fun i j => P (S i) (S j))) k l).
  { intros k l Hk Hl.
    pose proof (Hg (S k) (S l) ltac:(lia) ltac:(lia)) as H.
    unfold mmul, mtrans in H |- *. rewrite !rsum_shift in H.
    rewrite (Hcc k l Hk Hl) in H. lra. }
  pose proof (IH (fun i j => P (S i) (S j)) (fun i j => Q (S i) (S j))
                (lower_tri_tail n P HP) (lower_tri_tail n Q HQ)
                (diag_nonzero_tail n P Hd) Hg') as HI.
  destruct j as [|j'].
  - (* column 0 *)
    destruct i as [|i'].
    + split; [reflexivity|exact H00].
    + split.
      * change (forward_subst (S n) P (fun k => Q k O) (S i'))
          with (forward_subst n (fun i j => P (S i) (S j))
                  (fun i => Q (S i) O - P (S i) O * (Q O O / P O O)) i').
        simpl. apply forward_subst_zero; [|lia].
        intros k Hk. pose proof (Hc0 k Hk) as Hk0.
        apply (Rmult_eq_reg_r (Q O O)); [|exact HQ0].
        replace ((Q (S k) O - P (S k) O * (Q O O / P O O)) * Q O O)
          with (Q (S k) O * Q O O - P (S k) O * (Q O O * Q O O) / P O O)
          by (field; exact HP0).
        rewrite Hk0, H00. field. exact HP0.
      * destruct (HI i' i' ltac:(lia) ltac:(lia)) as [_ H]. exact H.
  - (* column S j' *)
    assert (Hq0 : Q O (S j') = 0) by (apply HQ; lia).
    destruct i as [|i'].
    + split; [|exact H00]. simpl. rewrite Hq0. unfold Rdiv. ring.
    + change (forward_subst (S n) P (fun k => Q k (S j')) (S i'))
        with (forward_subst n (fun i j => P (S i) (S j))
                (fun i => Q (S i) (S j') - P (S i) O * (Q O (S j') / P O O)) i').
      rewrite (forward_subst_ext n _ _ (fun k => Q (S k) (S j')))
        by (try lia; intros k Hk; rewrite Hq0; unfold Rdiv; ring).
      destruct (HI i' j' ltac:(lia) ltac:(lia)) as [H1 H2].
      split; [|exact H2]. rewrite H1. reflexivity.
Qed.

(** ** The Gaussian KL divergence *)

Lemma rsum_const n c : rsum n (fun _ => c) = INR n * c.
Proof.
  induction n as [|n IH]; [simpl; ring|].
  rewrite S_INR. simpl. rewrite IH. ring.
Qed.





(** It is 0 when the locations agree and the two scales are roots of the
    same matrix. *)
Lemma kl_divergence_zero qu pu n :
  size (loc qu) = n ->
  shape0 (scale qu) = n -> shape1 (scale qu) = n -> shape0 (scale pu) = n ->
  lower_tri n (entry (scale qu)) -> lower_tri n (entry (scale pu)) ->
  diag_nonzero n (entry (scale pu)) ->
  (forall i, (i < n)%nat -> coord (loc qu) i = coord (loc pu) i) ->
  (forall i j, (i < n)%nat -> (j < n)%nat ->
     mmul n (entry (scale qu)) (mtrans (entry (scale qu))) i j
     = mmul n (entry (scale pu)) (mtrans (entry (scale pu))) i j) ->
  kl_divergence qu pu = 0.
Proof.
  intros Hsz Hq0 Hq1 Hp0 Hlq Hlp Hdp Hloc Hg.
  unfold kl_divergence.
  set (P := entry (scale pu)) in *. set (Q := entry (scale qu)) in *.
  pose proof (same_gram_solve n P Q Hlp Hlq Hdp Hg) as HS.
  assert (HG : squared_frobenius_norm
                 (solve_triangular (scale pu) (column (vsub (loc qu) (loc pu))) true) = 0).
  { unfold squared_frobenius_norm. simpl. rewrite Hsz, Hp0.
    apply rsum_zero; intros i Hi. simpl.
    rewrite forward_subst_zero; [ring| |exact Hi].
    intros k Hk. rewrite (Hloc k Hk). ring. }
  assert (HF : squared_frobenius_norm (solve_triangular (scale pu) (scale qu) true)
               = INR n).
  { unfold squared_frobenius_norm. simpl. rewrite Hq0, Hq1, Hp0. fold P Q.
    rewrite <- (Rmult_1_r (INR n)), <- rsum_const.
    apply rsum_ext; intros i Hi.
    rewrite (rsum_ext n _ (fun j => if (j =? i)%nat
                                    then Q i i / P i i * (Q i i / P i i) else 0)).
    - rewrite (rsum_delta n i (fun _ => Q i i / P i i * (Q i i / P i i))) by exact Hi.
      destruct (HS i i Hi Hi) as [_ H2].
      pose proof (Hdp i Hi) as Hpi. fold P in Hpi.
      replace (Q i i / P i i * (Q i i / P i i))
        with (Q i i * Q i i / (P i i * P i i)) by (field; exact Hpi).
      rewrite H2. field. exact Hpi.
    - intros j Hj. destruct (HS i j Hi Hj) as [H1 _]. rewrite H1.
      rewrite (Nat.eqb_sym j i).
      destruct (i =? j)%nat; ring. }
  assert (HD : log_abs_det (scale pu) = log_abs_det (scale qu)).
  { unfold log_abs_det. rewrite Hq0, Hp0. fold P Q.
    apply rsum_ext; intros i Hi.
    destruct (HS i i Hi Hi) as [_ H2].
    f_equal. symmetry. apply Rsqr_eq_abs_0. unfold Rsqr. exact H2. }
  rewrite HG, HF, HD, Hsz. field.
Qed.

(** ** The array routines *)

Lemma array_eq_refl a : array_eq a a.
Proof. repeat split. Qed.

Lemma posdef_symmetrize n K : posdef n K <-> posdef n (symmetrize K).
Proof.
  split; intros H x Hx; specialize (H x Hx).
  - rewrite qf_symmetrize. exact H.
  - rewrite qf_symmetrize in H. exact H.
Qed.

(** [cholesky] succeeds exactly on the positive-definite arrays. *)
Lemma cholesky_complete a :
  positive_definite a -> exists Lz, cholesky a = Some Lz.
Proof.
  intros Hp. unfold cholesky.
  destruct (chol_complete (shape0 a) (symmetrize (entry a))) as [L HL].
  - apply msym_symmetrize.
  - apply (proj1 (posdef_symmetrize _ _)). exact Hp.
  - rewrite HL. eexists; reflexivity.
Qed.

Lemma cholesky_sound a Lz : cholesky a = Some Lz -> positive_definite a.
Proof.
  unfold cholesky. intros H.
  destruct (chol (shape0 a) (symmetrize (entry a))) as [L|] eqn:HL;
    [|discriminate].
  apply (proj2 (posdef_symmetrize _ _)).
  apply (chol_sound _ _ L); [apply msym_symmetrize|exact HL].
Qed.

Lemma cholesky_iff_positive_definite a :
  (exists Lz, cholesky a = Some Lz) <-> positive_definite a.
Proof.
  split; [intros [Lz H]; exact (cholesky_sound a Lz H)|apply cholesky_complete].
Qed.


(** What the factor is: of the shape of the input, lower triangular, with
    a positive diagonal, and a root of the symmetric part. *)
Lemma cholesky_spec a Lz :
  cholesky a = Some Lz ->
  shape0 Lz = shape0 a /\ shape1 Lz = shape1 a
  /\ (forall i j, (i < j)%nat -> entry Lz i j = 0)
  /\ diag_pos (shape0 a) (entry Lz)
  /\ (forall i j, (i < shape0 a)%nat -> (j < shape0 a)%nat ->
        mmul (shape0 a) (entry Lz) (mtrans (entry Lz)) i j
        = symmetrize (entry a) i j).
Proof.
  unfold cholesky. intros H.
  destruct (chol (shape0 a) (symmetrize (entry a))) as [L|] eqn:HL;
    [|discriminate].
  inversion H; subst Lz; clear H. simpl.
  repeat split.
  - intros i j Hij. apply (chol_lower_tri _ _ _ HL). exact Hij.
  - apply (chol_diag_pos _ _ _ HL).
  - intros i j Hi Hj.
    apply (chol_factor _ _ _ (msym_symmetrize _ _) HL); assumption.
Qed.

Lemma solve_lower_correct a b :
  shape1 a = shape0 a -> shape0 b = shape0 a ->
  lower_tri (shape0 a) (entry a) -> diag_nonzero (shape0 a) (entry a) ->
  array_eq (matmul a (solve_triangular a b true)) b.
Proof.
  intros Hsq Hb Hl Hd. unfold array_eq. simpl. repeat split; [congruence|].
  intros i j Hi Hj. unfold mmul. rewrite Hsq.
  apply (forward_subst_correct (shape0 a) (entry a) (fun k => entry b k j));
    assumption.
Qed.

Lemma solve_upper_correct a b :
  shape1 a = shape0 a -> shape0 b = shape0 a ->
  upper_tri (shape0 a) (entry a) -> diag_nonzero (shape0 a) (entry a) ->
  array_eq (matmul a (solve_triangular a b false)) b.
Proof.
  intros Hsq Hb Hl Hd. unfold array_eq. simpl. repeat split; [congruence|].
  intros i j Hi Hj. unfold mmul. rewrite Hsq.
  apply (back_subst_correct (shape0 a) (entry a) (fun k => entry b k j));
    assumption.
Qed.

Lemma jittered_Kzz_shape self params :
  shape0 (VariationalGaussian.jittered_Kzz self params) = shape0 (param_z params)
  /\ shape1 (VariationalGaussian.jittered_Kzz self params) = shape0 (param_z params).
Proof. split; reflexivity. Qed.

(** The factor of the jittered Kzz, as the solves need it. *)
Lemma Lz_facts self params Lz :
  cholesky (VariationalGaussian.jittered_Kzz self params) = Some Lz ->
  shape0 Lz = shape0 (param_z params) /\ shape1 Lz = shape0 (param_z params)
  /\ lower_tri (shape0 (param_z params)) (entry Lz)
  /\ diag_nonzero (shape0 (param_z params)) (entry Lz).
Proof.
  intros H. destruct (cholesky_spec _ _ H) as (H0 & H1 & Hl & Hd & _).
  destruct (jittered_Kzz_shape self params) as [E0 E1].
  rewrite E0 in *. rewrite E1 in *.
  repeat split; try assumption.
  - intros i j Hij _. apply Hl. exact Hij.
  - apply diag_pos_nonzero. exact Hd.
Qed.

Lemma cholesky_factor_array a Lz :
  cholesky a = Some Lz -> shape1 a = shape0 a ->
  array_eq (matmul Lz (transpose Lz)) (symmetric_part a).
Proof.
  intros H Hsq. destruct (cholesky_spec _ _ H) as (H0 & H1 & _ & _ & Hf).
  unfold array_eq. simpl. repeat split; try congruence.
  intros i j Hi Hj. rewrite H1, Hsq. apply Hf; congruence.
Qed.

Lemma symmetric_part_of_symmetric a :
  symmetric a -> array_eq (symmetric_part a) a.
Proof.
  intros [Hsh Hs]. split; [reflexivity|]. split; [reflexivity|].
  simpl. intros i j Hi Hj. apply (symmetrize_msym (shape0 a)); [exact Hs|lia|lia].
Qed.

(** In the bodies of [prior_kl] and [predict], give the jittered Kzz its
    name. *)
Ltac name_jittered_Kzz self params :=
  change (add (gram (Prior.kernel (VariationalGaussian.prior self))
                 (Params.inducing_inputs (Params.variational_family params))
                 (Params.kernel params))
            (mul_scalar (utils.I (VariationalGaussian.num_inducing self))
               (VariationalGaussian.jitter self)))
    with (VariationalGaussian.jittered_Kzz self params).

Lemma Lz_solve_lower self params Lz b :
  cholesky (VariationalGaussian.jittered_Kzz self params) = Some Lz ->
  shape0 b = shape0 (param_z params) ->
  array_eq (matmul Lz (solve_triangular Lz b true)) b.
Proof.
  intros H Hb. destruct (Lz_facts self params Lz H) as (H0 & H1 & Hl & Hd).
  apply solve_lower_correct; rewrite ?H0; congruence || assumption.
Qed.

Lemma Lz_solve_upper self params Lz b :
  cholesky (VariationalGaussian.jittered_Kzz self params) = Some Lz ->
  shape0 b = shape0 (param_z params) ->
  array_eq (matmul (transpose Lz) (solve_triangular (transpose Lz) b false)) b.
Proof.
  intros H Hb. destruct (Lz_facts self params Lz H) as (H0 & H1 & Hl & Hd).
  apply solve_upper_correct; simpl; rewrite ?H1; try congruence.
  - apply upper_tri_mtrans. exact Hl.
  - intros k Hk. unfold mtrans. apply Hd. exact Hk.
Qed.

(** ** Whitening *)

(** With B the backward solve of [L^T B = a] and w the forward solve of
    [L w = d]: the product of B with d is the product of a with w. *)
Lemma whiten_dot n L a d :
  lower_tri n L -> diag_nonzero n L ->
  rsum n (fun k => back_subst n (mtrans L) a k * d k)
  = rsum n (fun k => a k * forward_subst n L d k).
Proof.
  intros Hl Hd.
  set (y := back_subst n (mtrans L) a).
  set (w := forward_subst n L d).
  rewrite (rsum_ext n (fun k => y k * d k)
             (fun k => rsum n (fun l => y k * L k l * w l))).
  - rewrite (rsum_ext n (fun k => a k * w k)
               (fun l => rsum n (fun k => y k * L k l * w l))).
    + apply rsum_swap.
    + intros l Hl'.
      rewrite <- (back_subst_correct n (mtrans L) a
                    (upper_tri_mtrans n L Hl)
                    (fun k Hk => Hd k Hk) l Hl').
      fold y. rewrite <- rsum_scal_r. apply rsum_ext; intros k _.
      unfold mtrans. ring.
  - intros k Hk.
    rewrite <- (forward_subst_correct n L d Hl Hd k Hk). fold w.
    rewrite <- rsum_scal_l. apply rsum_ext; intros l _. ring.
Qed.

(** ** The conditional variance *)

Lemma qf_block m n J v :
  qf (m + n) J v =
  qf m J v
  + rsum m (fun i => rsum n (fun j => v i * J i (m + j)%nat * v (m + j)%nat))
  + rsum n (fun i => rsum m (fun j => v (m + i)%nat * J (m + i)%nat j * v j))
  + qf n (fun i j => J (m + i)%nat (m + j)%nat) (fun i => v (m + i)%nat).
Proof.
  unfold qf. rewrite rsum_app.
  rewrite (rsum_ext m (fun i => rsum (m + n) (fun j => v i * J i j * v j))
             (fun i => rsum m (fun j => v i * J i j * v j)
                       + rsum n (fun j => v i * J i (m + j)%nat * v (m + j)%nat)))
    by (intros; apply rsum_app).
  rewrite (rsum_ext n
             (fun k => rsum (m + n) (fun j => v (m + k)%nat * J (m + k)%nat j * v j))
             (fun k => rsum m (fun j => v (m + k)%nat * J (m + k)%nat j * v j)
                       + rsum n (fun j => v (m + k)%nat * J (m + k)%nat (m + j)%nat
                                          * v (m + j)%nat)))
    by (intros; apply rsum_app).
  rewrite !rsum_plus. ring.
Qed.

Lemma qf_neg n K y : qf n K (fun k => - y k) = qf n K y.
Proof.
  unfold qf. apply rsum_ext; intros i _. apply rsum_ext; intros j _. ring.
Qed.

(** The quadratic form of [L L^T] is the squared norm of [L^T y]. *)
Lemma qf_gram n L y :
  qf n (mmul n L (mtrans L)) y
  = rsum n (fun l => rsum n (fun k => L k l * y k) * rsum n (fun k => L k l * y k)).
Proof.
  unfold qf, mmul, mtrans.
  rewrite (rsum_ext n
     (fun l => rsum n (fun k => L k l * y k) * rsum n (fun k => L k l * y k))
     (fun l => rsum n (fun i => rsum n (fun j => y i * (L i l * L j l) * y j)))).
  - rewrite (rsum_swap n n (fun l i => rsum n (fun j => y i * (L i l * L j l) * y j))).
    apply rsum_ext; intros i _.
    rewrite (rsum_swap n n (fun l j => y i * (L i l * L j l) * y j)).
    apply rsum_ext; intros j _.
    rewrite <- rsum_scal_l, <- rsum_scal_r. reflexivity.
  - intros l _. rewrite rsum_mult. apply rsum_ext; intros i _.
    apply rsum_ext; intros j _. ring.
Qed.

Lemma qf_jitter n K c y :
  qf n (fun i j => K i j + (if (i =? j)%nat then 1 else 0) * c) y
  = qf n K y + c * rsum n (fun k => y k * y k).
Proof.
  unfold qf. rewrite <- rsum_scal_l, <- rsum_plus.
  apply rsum_ext; intros i Hi.
  rewrite (rsum_ext n _
     (fun j => y i * K i j * y j + (if (j =? i)%nat then c * (y i * y j) else 0))).
  - rewrite rsum_plus.
    rewrite (rsum_delta n i (fun j => c * (y i * y j))) by exact Hi. reflexivity.
  - intros j _. rewrite (Nat.eqb_sym j i). destruct (i =? j)%nat; ring.
Qed.

(** For a positive semi-definite joint matrix [[Kzz, Kzt], [Kzt^T, Ktt]],
    a jitter that is not negative and L a root of the symmetric part of the
    jittered Kzz: the squared norm of column i of [L^-1 Kzt] is at most
    the entry (i, i) of Ktt. *)
Lemma conditional_variance_nonneg m n Kzz Kzt Ktt c L i :
  possemidef (m + n) (block_joint m Kzz Kzt Ktt) ->
  0 <= c ->
  lower_tri m L -> diag_nonzero m L ->
  (forall p q, (p < m)%nat -> (q < m)%nat ->
     mmul m L (mtrans L) p q
     = symmetrize (fun i j => Kzz i j + (if (i =? j)%nat then 1 else 0) * c) p q) ->
  (i < n)%nat ->
  rsum m (fun k => forward_subst m L (fun l => Kzt l i) k
                   * forward_subst m L (fun l => Kzt l i) k)
  <= Ktt i i.
Proof.
  intros Hpsd Hc Hl Hd Hf Hi.
  set (a := forward_subst m L (fun l => Kzt l i)).
  set (y := back_subst m (mtrans L) a).
  set (s := rsum m (fun k => a k * a k)).
  (* s = y . Kzt[:, i] *)
  assert (E1 : rsum m (fun k => y k * Kzt k i) = s).
  { unfold y, s, a. apply (whiten_dot m L _ (fun k => Kzt k i) Hl Hd). }
  (* s = y^T (Kzz + c I) y *)
  assert (E2 : s = qf m Kzz y + c * rsum m (fun k => y k * y k)).
  { rewrite <- qf_jitter, <- qf_symmetrize.
    rewrite <- (qf_ext m (mmul m L (mtrans L)) _ y y Hf (fun _ _ => eq_refl)).
    rewrite qf_gram. unfold s. apply rsum_ext; intros l Hl'.
    assert (Ha : rsum m (fun k => L k l * y k) = a l).
    { apply (back_subst_correct m (mtrans L) a (upper_tri_mtrans m L Hl)
               (fun k Hk => Hd k Hk) l Hl'). }
    rewrite Ha. reflexivity. }
  (* the joint quadratic form at (-y, e_i) *)
  pose (v := fun k : nat =>
               if (k <? m)%nat then - y k
               else if (k - m =? i)%nat then 1 else 0).
  pose proof (Hpsd v) as Hq. rewrite qf_block in Hq.
  assert (Q1 : qf m (block_joint m Kzz Kzt Ktt) v = qf m Kzz y).
  { rewrite <- (qf_neg m Kzz y). apply qf_ext.
    - intros p q Hp Hq'. unfold block_joint.
      destruct (Nat.ltb_spec p m); [|lia].
      destruct (Nat.ltb_spec q m); [|lia]. reflexivity.
    - intros p Hp. unfold v. destruct (Nat.ltb_spec p m); [|lia]. reflexivity. }
  assert (Q2 : rsum m (fun p => rsum n (fun q =>
                 v p * block_joint m Kzz Kzt Ktt p (m + q)%nat * v (m + q)%nat))
               = - s).
  { rewrite <- E1, <- rsum_opp.
    apply rsum_ext; intros p Hp.
    rewrite (rsum_ext n _
       (fun q => if (q =? i)%nat then - y p * Kzt p q else 0)).
    - rewrite (rsum_delta n i (fun q => - y p * Kzt p q)) by exact Hi. ring.
    - intros q Hq'. unfold v, block_joint.
      destruct (Nat.ltb_spec p m); [|lia].
      destruct (Nat.ltb_spec (m + q) m); [lia|].
      replace (m + q - m)%nat with q by lia.
      destruct (q =? i)%nat; ring. }
  assert (Q3 : rsum n (fun p => rsum m (fun q =>
                 v (m + p)%nat * block_joint m Kzz Kzt Ktt (m + p)%nat q * v q))
               = - s).
  { rewrite <- E1, <- rsum_opp. rewrite rsum_swap.
    apply rsum_ext; intros q Hq'.
    rewrite (rsum_ext n _
       (fun p => if (p =? i)%nat then - y q * Kzt q p else 0)).
    - rewrite (rsum_delta n i (fun p => - y q * Kzt q p)) by exact Hi. ring.
    - intros p Hp. unfold v, block_joint.
      destruct (Nat.ltb_spec q m); [|lia].
      destruct (Nat.ltb_spec (m + p) m); [lia|].
      replace (m + p - m)%nat with p by lia.
      destruct (p =? i)%nat; ring. }
  assert (Q4 : qf n (fun p q => block_joint m Kzz Kzt Ktt (m + p)%nat (m + q)%nat)
                 (fun p => v (m + p)%nat) = Ktt i i).
  { unfold qf.
    rewrite (rsum_ext n _
       (fun p => if (p =? i)%nat
                 then rsum n (fun q => if (q =? i)%nat then Ktt p q else 0)
                 else 0)).
    - rewrite (rsum_delta n i
                 (fun p => rsum n (fun q => if (q =? i)%nat then Ktt p q else 0)))
        by exact Hi.
      apply (rsum_delta n i (fun q => Ktt i q)). exact Hi.
    - intros p Hp. unfold v, block_joint.
      destruct (Nat.ltb_spec (m + p) m); [lia|].
      replace (m + p - m)%nat with p by lia.
      destruct (p =? i)%nat.
      + apply rsum_ext; intros q Hq'.
        destruct (Nat.ltb_spec (m + q) m); [lia|].
        replace (m + q - m)%nat with q by lia.
        destruct (q =? i)%nat; ring.
      + apply rsum_zero; intros q Hq'. ring. }
  rewrite Q1, Q2, Q3, Q4 in Hq.
  assert (0 <= rsum m (fun k => y k * y k))
    by (apply rsum_nonneg; intros; nra).
  fold s. nra.
Qed.

(** The shape of the covariance [predict] assembles. *)
Lemma assembled_covariance_symmetric Ktt A C n c :
  symmetric Ktt ->
  symmetric (add (add (sub Ktt (matmul (transpose A) A))
                    (matmul C (transpose C)))
               (mul_scalar (utils.I n) c)).
Proof.
  intros [Hsh Hsym]. split; [exact Hsh|]. simpl. intros i j Hi Hj.
  rewrite (Hsym i j Hi Hj), (Nat.eqb_sym i j).
  unfold mmul, mtrans.
  rewrite (rsum_ext (shape0 A) (fun l => entry A l i * entry A l j)
             (fun l => entry A l j * entry A l i)) by (intros; ring).
  rewrite (rsum_ext (shape1 C) (fun l => entry C i l * entry C j l)
             (fun l => entry C j l * entry C i l)) by (intros; ring).
  reflexivity.
Qed.

Lemma assembled_covariance_diag_nonneg Ktt A C n c i :
  entry (matmul (transpose A) A) i i <= entry Ktt i i ->
  0 <= c ->
  0 <= entry (add (add (sub Ktt (matmul (transpose A) A))
                     (matmul C (transpose C)))
                (mul_scalar (utils.I n) c)) i i.
Proof.
  intros Hle Hc. simpl. simpl in Hle. rewrite Nat.eqb_refl.
  assert (0 <= mmul (shape1 C) (entry C) (mtrans (entry C)) i i)
    by (unfold mmul, mtrans; apply rsum_nonneg; intros; nra).
  lra.
Qed.

(** ** Roots, determinants and the identity *)



Lemma tril_lower_tri a n : lower_tri n (entry (tril a)).
Proof.
  intros i j Hij _. simpl. destruct (Nat.leb_spec j i); [lia|reflexivity].
Qed.

Lemma tril_entry a n i j :
  lower_tri n (entry a) -> (j < n)%nat -> entry (tril a) i j = entry a i j.
Proof.
  intros Hl Hj. simpl. destruct (Nat.leb_spec j i); [reflexivity|].
  symmetry. apply Hl; assumption.
Qed.


Lemma identity_lower_tri n m : lower_tri n (entry (utils.I m)).
Proof.
  intros i j Hij _. simpl. destruct (Nat.eqb_spec i j); [lia|reflexivity].
Qed.

Lemma identity_diag_nonzero n m : diag_nonzero n (entry (utils.I m)).
Proof. intros i _. simpl. rewrite Nat.eqb_refl. lra. Qed.




Lemma tril_gram a n i j :
  lower_tri n (entry a) ->
  mmul n (entry (tril a)) (mtrans (entry (tril a))) i j
  = mmul n (entry a) (mtrans (entry a)) i j.
Proof.
  intros Hl. unfold mmul, mtrans. apply rsum_ext; intros k Hk.
  rewrite !(tril_entry a n _ k Hl Hk). reflexivity.
Qed.

(** ** Uniqueness of the triangular solve *)



(** ** Propagation of NaN *)







(** ** The finite path *)

Lemma nsum_finite n f g :
  (forall k, f k = Some (g k)) -> NaN.nsum n f = Some (rsum n g).
Proof.
  intros H. induction n as [|n IH]; simpl; [reflexivity|].
  rewrite IH, H. reflexivity.
Qed.

Lemma forward_subst_finite n : forall L b L' b',
  (forall i j, L i j = Some (L' i j)) -> (forall i, b i = Some (b' i)) ->
  forall i, NaN.forward_subst n L b i = Some (forward_subst n L' b' i).
Proof.
  induction n as [|n IH]; intros L b L' b' HL Hb i; [reflexivity|]. simpl.
  destruct i as [|i'].
  - rewrite Hb, HL. reflexivity.
  - apply IH.
    + intros p q. apply HL.
    + intros p. rewrite !Hb, !HL. reflexivity.
Qed.

Lemma back_subst_finite n : forall U b U' b',
  (forall i j, U i j = Some (U' i j)) -> (forall i, b i = Some (b' i)) ->
  forall i, NaN.back_subst n U b i = Some (back_subst n U' b' i).
Proof.
  induction n as [|n IH]; intros U b U' b' HU Hb i; [reflexivity|]. simpl.
  assert (Hrest : forall k,
            NaN.back_subst n (fun i j => U (S i) (S j)) (fun i => b (S i)) k
            = Some (back_subst n (fun i j => U' (S i) (S j)) (fun i => b' (S i)) k)).
  { apply IH; [intros p q; apply HU|intros p; apply Hb]. }
  destruct i as [|i']; [|apply Hrest].
  rewrite (nsum_finite n _
             (fun k => U' O (S k)
                       * back_subst n (fun i j => U' (S i) (S j))
                           (fun i => b' (S i)) k))
    by (intros k; rewrite HU, Hrest; reflexivity).
  rewrite Hb, HU. reflexivity.
Qed.

Lemma finite_of_array a : finite_as (NaN.of_array a) a.
Proof. repeat split. Qed.

Lemma finite_add x y a b :
  finite_as x a -> finite_as y b -> finite_as (NaN.add x y) (add a b).
Proof.
  intros (X0 & X1 & X) (_ & _ & Y).
  split; [exact X0|]. split; [exact X1|].
  intros i j. cbn [NaN.nentry NaN.add entry add]. rewrite X, Y. reflexivity.
Qed.

Lemma finite_sub x y a b :
  finite_as x a -> finite_as y b -> finite_as (NaN.sub x y) (sub a b).
Proof.
  intros (X0 & X1 & X) (_ & _ & Y).
  split; [exact X0|]. split; [exact X1|].
  intros i j. cbn [NaN.nentry NaN.sub entry sub]. rewrite X, Y. reflexivity.
Qed.

Lemma finite_transpose x a :
  finite_as x a -> finite_as (NaN.transpose x) (transpose a).
Proof.
  intros (X0 & X1 & X).
  split; [exact X1|]. split; [exact X0|].
  intros i j. cbn [NaN.nentry NaN.transpose entry transpose]. apply X.
Qed.

Lemma finite_matmul x y a b :
  finite_as x a -> finite_as y b -> finite_as (NaN.matmul x y) (matmul a b).
Proof.
  intros (X0 & X1 & X) (Y0 & Y1 & Y).
  split; [exact X0|]. split; [exact Y1|].
  intros i j. cbn [NaN.nentry NaN.matmul entry matmul]. rewrite X1.
  unfold mmul. apply nsum_finite. intros k. rewrite X, Y. reflexivity.
Qed.

Lemma finite_tril x a : finite_as x a -> finite_as (NaN.tril x) (tril a).
Proof.
  intros (X0 & X1 & X).
  split; [exact X0|]. split; [exact X1|].
  intros i j. cbn [NaN.nentry NaN.tril entry tril].
  destruct (j <=? i)%nat; [apply X|reflexivity].
Qed.

Lemma finite_solve_triangular x y a b lower :
  finite_as x a -> finite_as y b ->
  finite_as (NaN.solve_triangular x y lower) (solve_triangular a b lower).
Proof.
  intros (X0 & X1 & X) (Y0 & Y1 & Y).
  split; [exact Y0|]. split; [exact Y1|].
  intros i j. cbn [NaN.nentry NaN.solve_triangular entry solve_triangular].
  rewrite X0. destruct lower.
  - apply forward_subst_finite; [exact X|intros k; apply Y].
  - apply back_subst_finite; [exact X|intros k; apply Y].
Qed.

Lemma finite_cholesky a Lz :
  cholesky a = Some Lz -> finite_as (NaN.cholesky a) Lz.
Proof. intros H. unfold NaN.cholesky. rewrite H. apply finite_of_array. Qed.

Lemma finite_squeeze x a :
  finite_as x a -> finite_vector_as (NaN.squeeze x) (squeeze a).
Proof.
  intros (X0 & _ & X). split; [exact X0|]. intros i. apply X.
Qed.

Lemma finite_column v u :
  finite_vector_as v u -> finite_as (NaN.column v) (column u).
Proof.
  intros (V0 & V). split; [exact V0|]. split; [reflexivity|].
  intros i j. apply V.
Qed.

Lemma finite_vsub v w u t :
  finite_vector_as v u -> finite_vector_as w t ->
  finite_vector_as (NaN.vsub v w) (vsub u t).
Proof.
  intros (V0 & V) (_ & W). split; [exact V0|].
  intros i. cbn [NaN.ncoord NaN.vsub coord vsub]. rewrite V, W. reflexivity.
Qed.

Lemma finite_log_abs_det x a :
  finite_as x a -> NaN.log_abs_det x = Some (log_abs_det a).
Proof.
  intros (X0 & _ & X). unfold NaN.log_abs_det, log_abs_det. rewrite X0.
  apply nsum_finite. intros i. rewrite X. reflexivity.
Qed.

Lemma finite_squared_frobenius_norm x a :
  finite_as x a ->
  NaN.squared_frobenius_norm x = Some (squared_frobenius_norm a).
Proof.
  intros (X0 & X1 & X). unfold NaN.squared_frobenius_norm, squared_frobenius_norm.
  rewrite X0, X1. apply nsum_finite. intros i.
  apply nsum_finite. intros j. rewrite X. reflexivity.
Qed.

Lemma finite_kl_divergence qu pu qu' pu' :
  finite_vector_as (NaN.loc qu) (loc qu') ->
  finite_as (NaN.scale qu) (scale qu') ->
  finite_vector_as (NaN.loc pu) (loc pu') ->
  finite_as (NaN.scale pu) (scale pu') ->
  NaN.kl_divergence qu pu = Some (kl_divergence qu' pu').
Proof.
  intros Hlq Hsq Hlp Hsp. unfold NaN.kl_divergence, kl_divergence.
  rewrite (finite_log_abs_det _ _ Hsp), (finite_log_abs_det _ _ Hsq).
  rewrite (finite_squared_frobenius_norm _ _
             (finite_solve_triangular _ _ _ _ true Hsp Hsq)).
  rewrite (finite_squared_frobenius_norm _ _
             (finite_solve_triangular _ _ _ _ true Hsp
                (finite_column _ _ (finite_vsub _ _ _ _ Hlq Hlp)))).
  destruct Hlq as [-> _]. reflexivity.
Qed.

(** * Verified properties *)

(** ** The predictive distributions *)

(** C2.  For a parameter dictionary of the shapes of the data model whose
    jittered Kzz is positive definite, [predict] of [VariationalGaussian]
    returns a function, and at a test batch of N points that function
    returns the normal over N points with mean mu_t + B^T (mu - mu_z) and
    covariance Ktt - A^T A + C C^T + jitter I(N), entry by entry, where Lz
    is the lower-triangular factor with Lz Lz^T the (symmetrised) jittered
    Kzz, A is the array the forward substitution returns and solves
    Lz A = Kzt, B is the array the backward substitution returns and
    solves Lz^T B = A, and C = B^T sqrt. *)
Theorem VariationalGaussian_predict_closed_form
  (self : VariationalGaussian.t) (params : Params.t) (T : Array) :
  well_shaped self params ->
  positive_definite (VariationalGaussian.jittered_Kzz self params) ->
  let M := VariationalGaussian.num_inducing self in
  let N := shape0 T in
  let jitter := VariationalGaussian.jitter self in
  exists Lz A B predict_fn,
    cholesky (VariationalGaussian.jittered_Kzz self params) = Some Lz
    /\ lower_tri M (entry Lz)
    /\ diag_pos M (entry Lz)
    /\ (forall i j, (i < M)%nat -> (j < M)%nat ->
          rsum M (fun k => entry Lz i k * entry Lz j k)
          = (entry (prior_Kzz self params) i j
             + entry (prior_Kzz self params) j i) / 2
            + (if (i =? j)%nat then jitter else 0))
    /\ A = solve_triangular Lz (prior_Kzt self params T) true
    /\ solves M N (entry Lz) (entry A) (entry (prior_Kzt self params T))
    /\ B = solve_triangular (transpose Lz) A false
    /\ solves M N (fun i k => entry Lz k i) (entry B) (entry A)
    /\ VariationalGaussian.predict self params = Some predict_fn
    /\ size (mean (predict_fn T)) = N
    /\ (forall i, (i < N)%nat ->
          coord (mean (predict_fn T)) i
          = closed_form_mean M
              (fun p => entry (prior_mean_t self params T) p O) (entry B)
              (fun k => entry (param_mu params) k O
                        - entry (prior_mean_z self params) k O) i)
    /\ shape0 (covariance (predict_fn T)) = N
    /\ shape1 (covariance (predict_fn T)) = N
    /\ (forall i j, (i < N)%nat -> (j < N)%nat ->
          entry (covariance (predict_fn T)) i j
          = closed_form_covariance M (entry (prior_Ktt self params T))
              (entry A) (entry B) (entry (param_sqrt params)) jitter i j).
Proof.
  intros (Wz & Wm0 & Wm1 & Ws0 & Ws1) Hpd M N jitter.
  destruct (cholesky_complete _ Hpd) as [Lz HLz].
  destruct (Lz_facts self params Lz HLz) as (H0 & H1 & Hl & Hd).
  destruct (cholesky_spec _ _ HLz) as (_ & _ & _ & Hpos & Hf).
  destruct (jittered_Kzz_shape self params) as [E0 _].
  rewrite E0 in Hpos, Hf. rewrite Wz in H0, H1, Hl, Hd, Hpos, Hf.
  fold M in H0, H1, Hl, Hd, Hpos, Hf, Wz, Ws0, Ws1.
  exists Lz.
  exists (solve_triangular Lz (prior_Kzt self params T) true).
  exists (solve_triangular (transpose Lz)
            (solve_triangular Lz (prior_Kzt self params T) true) false).
  unfold VariationalGaussian.predict.
  name_jittered_Kzz self params.
  rewrite HLz. eexists.
  split; [reflexivity|].
  split; [exact Hl|].
  split; [exact Hpos|].
  split.
  { intros i j Hi Hj.
    etransitivity; [exact (Hf i j Hi Hj)|].
    unfold symmetrize, VariationalGaussian.jittered_Kzz.
    cbn [entry add mul_scalar utils.I gram prior_Kzz].
    fold (param_z params). fold jitter.
    rewrite (Nat.eqb_sym j i).
    destruct (i =? j)%nat; field. }
  split; [reflexivity|].
  split.
  { intros i j Hi Hj. cbn [entry solve_triangular]. rewrite H0.
    exact (forward_subst_correct M (entry Lz) _ Hl Hd i Hi). }
  split; [reflexivity|].
  split.
  { intros i j Hi Hj. cbn [entry solve_triangular transpose shape0 shape1].
    rewrite H1.
    exact (back_subst_correct M (mtrans (entry Lz)) _
             (upper_tri_mtrans M _ Hl)
             (fun p Hp => Hd p Hp) i Hi). }
  split; [reflexivity|].
  split; [reflexivity|].
  split.
  { intros i Hi. unfold closed_form_mean, atleast_1d.
    cbn [mean coord squeeze add matmul transpose sub entry shape0 shape1
         solve_triangular prior_Kzt cross_covariance].
    unfold mmul, mtrans. fold (param_z params) (param_mu params).
    rewrite Wz. reflexivity. }
  split; [reflexivity|].
  split; [reflexivity|].
  intros i j Hi Hj. unfold closed_form_covariance.
  cbn [covariance add matmul transpose sub mul_scalar utils.I entry shape0
       shape1 solve_triangular prior_Kzt cross_covariance].
  unfold mmul, mtrans. fold (param_z params) (param_sqrt params).
  rewrite Wz, Ws1. fold jitter. unfold prior_Ktt.
  destruct (i =? j)%nat; ring.
Qed.

(** C3.  For a parameter dictionary of the shapes of the data model whose
    jittered Kzz is positive definite, [predict] of
    [WhitenedVariationalGaussian] returns a function, and at a test batch
    of N points that function returns the normal over N points with mean
    mu_t + A^T mu, with no mu_z subtracted, and covariance
    Ktt - A^T A + C C^T + jitter I(N), entry by entry, where Lz is the
    lower-triangular factor with Lz Lz^T the (symmetrised) jittered Kzz,
    A is the array the forward substitution returns and solves
    Lz A = Kzt, and C = A^T sqrt. *)
Theorem WhitenedVariationalGaussian_predict_closed_form
  (self : WhitenedVariationalGaussian.t) (params : Params.t) (T : Array) :
  well_shaped self params ->
  positive_definite (VariationalGaussian.jittered_Kzz self params) ->
  let M := VariationalGaussian.num_inducing self in
  let N := shape0 T in
  let jitter := VariationalGaussian.jitter self in
  exists Lz A predict_fn,
    cholesky (VariationalGaussian.jittered_Kzz self params) = Some Lz
    /\ lower_tri M (entry Lz)
    /\ diag_pos M (entry Lz)
    /\ (forall i j, (i < M)%nat -> (j < M)%nat ->
          rsum M (fun k => entry Lz i k * entry Lz j k)
          = (entry (prior_Kzz self params) i j
             + entry (prior_Kzz self params) j i) / 2
            + (if (i =? j)%nat then jitter else 0))
    /\ A = solve_triangular Lz (prior_Kzt self params T) true
    /\ solves M N (entry Lz) (entry A) (entry (prior_Kzt self params T))
    /\ WhitenedVariationalGaussian.predict self params = Some predict_fn
    /\ size (mean (predict_fn T)) = N
    /\ (forall i, (i < N)%nat ->
          coord (mean (predict_fn T)) i
          = closed_form_mean M
              (fun p => entry (prior_mean_t self params T) p O) (entry A)
              (fun k => entry (param_mu params) k O) i)
    /\ shape0 (covariance (predict_fn T)) = N
    /\ shape1 (covariance (predict_fn T)) = N
    /\ (forall i j, (i < N)%nat -> (j < N)%nat ->
          entry (covariance (predict_fn T)) i j
          = closed_form_covariance M (entry (prior_Ktt self params T))
              (entry A) (entry A) (entry (param_sqrt params)) jitter i j).
Proof.
  intros (Wz & Wm0 & Wm1 & Ws0 & Ws1) Hpd M N jitter.
  destruct (cholesky_complete _ Hpd) as [Lz HLz].
  destruct (Lz_facts self params Lz HLz) as (H0 & H1 & Hl & Hd).
  destruct (cholesky_spec _ _ HLz) as (_ & _ & _ & Hpos & Hf).
  destruct (jittered_Kzz_shape self params) as [E0 _].
  rewrite E0 in Hpos, Hf. rewrite Wz in H0, H1, Hl, Hd, Hpos, Hf.
  fold M in H0, H1, Hl, Hd, Hpos, Hf, Wz, Ws0, Ws1.
  exists Lz.
  exists (solve_triangular Lz (prior_Kzt self params T) true).
  unfold WhitenedVariationalGaussian.predict.
  name_jittered_Kzz self params.
  rewrite HLz. eexists.
  split; [reflexivity|].
  split; [exact Hl|].
  split; [exact Hpos|].
  split.
  { intros i j Hi Hj.
    etransitivity; [exact (Hf i j Hi Hj)|].
    unfold symmetrize, VariationalGaussian.jittered_Kzz.
    cbn [entry add mul_scalar utils.I gram prior_Kzz].
    fold (param_z params). fold jitter.
    rewrite (Nat.eqb_sym j i).
    destruct (i =? j)%nat; field. }
  split; [reflexivity|].
  split.
  { intros i j Hi Hj. cbn [entry solve_triangular]. rewrite H0.
    exact (forward_subst_correct M (entry Lz) _ Hl Hd i Hi). }
  split; [reflexivity|].
  split; [reflexivity|].
  split.
  { intros i Hi. unfold closed_form_mean, atleast_1d.
    cbn [mean coord squeeze add matmul transpose entry shape0 shape1
         solve_triangular prior_Kzt cross_covariance].
    unfold mmul, mtrans. fold (param_z params) (param_mu params).
    rewrite Wz. reflexivity. }
  split; [reflexivity|].
  split; [reflexivity|].
  intros i j Hi Hj. unfold closed_form_covariance.
  cbn [covariance add matmul transpose sub mul_scalar utils.I entry shape0
       shape1 solve_triangular prior_Kzt cross_covariance].
  unfold mmul, mtrans. fold (param_z params) (param_sqrt params).
  rewrite Wz, Ws1. fold jitter. unfold prior_Ktt.
  destruct (i =? j)%nat; ring.
Qed.



(** C9.  When the jittered Kzz is positive definite and the gram matrix
    Ktt of the test batch is symmetric, both [predict] functions are
    returned and the covariance of each distribution is symmetric; if
    moreover the jitter is not negative and the joint prior covariance over
    the inducing and the test points is positive semi-definite, every
    diagonal entry of each covariance is at least 0. *)
Theorem predict_covariance_symmetric_with_nonneg_diagonal
  (self : VariationalGaussian.t) (params : Params.t) (T : Array) :
  positive_definite (VariationalGaussian.jittered_Kzz self params) ->
  symmetric (prior_Ktt self params T) ->
  exists fu fw,
    VariationalGaussian.predict self params = Some fu
    /\ WhitenedVariationalGaussian.predict self params = Some fw
    /\ symmetric (covariance (fu T))
    /\ symmetric (covariance (fw T))
    /\ (0 <= VariationalGaussian.jitter self ->
        positive_semidefinite (joint_prior_covariance self params T) ->
        forall i, (i < shape0 T)%nat ->
          0 <= entry (covariance (fu T)) i i
          /\ 0 <= entry (covariance (fw T)) i i).
Proof.
  intros Hpd [Hsh Hsym].
  destruct (cholesky_complete _ Hpd) as [Lz HLz].
  destruct (Lz_facts self params Lz HLz) as (H0 & H1 & Hl & Hd).
  destruct (cholesky_spec _ _ HLz) as (_ & _ & _ & _ & Hf).
  unfold VariationalGaussian.predict, WhitenedVariationalGaussian.predict.
  name_jittered_Kzz self params.
  rewrite HLz. do 2 eexists.
  split; [reflexivity|]. split; [reflexivity|].
  split; [apply assembled_covariance_symmetric; split; assumption|].
  split; [apply assembled_covariance_symmetric; split; assumption|].
  intros Hjit Hpsd i Hi.
  pose proof (conditional_variance_nonneg
                (shape0 (param_z params)) (shape0 T)
                (entry (prior_Kzz self params))
                (entry (prior_Kzt self params T))
                (entry (prior_Ktt self params T))
                (VariationalGaussian.jitter self) (entry Lz) i
                Hpsd Hjit Hl Hd Hf Hi) as Hcv.
  assert (Hle : entry (matmul
                         (transpose (solve_triangular Lz (prior_Kzt self params T) true))
                         (solve_triangular Lz (prior_Kzt self params T) true)) i i
                <= entry (prior_Ktt self params T) i i).
  { unfold matmul, transpose, solve_triangular, mmul, mtrans.
    cbn [entry shape0 shape1]. rewrite H0. exact Hcv. }
  split; apply assembled_covariance_diag_nonneg; assumption.
Qed.

(** ** Failure of the factorisation *)





(** When the factorisation succeeds, the methods followed through NaN
    return the results of the methods above, none of which is NaN. *)
Lemma prior_kl_on_finite_path (self : VariationalGaussian.t) (params : Params.t)
  (Lz : Array) :
  cholesky (VariationalGaussian.jittered_Kzz self params) = Some Lz ->
  exists kl,
    VariationalGaussian.prior_kl self params = Some kl
    /\ NaN.VariationalGaussian.prior_kl self params = Some kl.
Proof.
  intros HLz.
  unfold VariationalGaussian.prior_kl, NaN.VariationalGaussian.prior_kl.
  name_jittered_Kzz self params. rewrite HLz.
  eexists. split; [reflexivity|].
  apply finite_kl_divergence;
    cbn [NaN.loc NaN.scale NaN.MultivariateNormalTri loc scale
         MultivariateNormalTri NaN.atleast_1d atleast_1d].
  - apply finite_squeeze, finite_of_array.
  - apply finite_tril, finite_of_array.
  - apply finite_squeeze, finite_of_array.
  - apply finite_tril, finite_cholesky, HLz.
Qed.

Lemma predict_on_finite_path (self : VariationalGaussian.t) (params : Params.t)
  (Lz T : Array) :
  cholesky (VariationalGaussian.jittered_Kzz self params) = Some Lz ->
  exists f,
    VariationalGaussian.predict self params = Some f
    /\ finite_vector_as
         (NaN.mean (NaN.VariationalGaussian.predict self params T)) (mean (f T))
    /\ finite_as
         (NaN.covariance (NaN.VariationalGaussian.predict self params T))
         (covariance (f T)).
Proof.
  intros HLz. pose proof (finite_cholesky _ _ HLz) as HL.
  unfold VariationalGaussian.predict, NaN.VariationalGaussian.predict.
  name_jittered_Kzz self params. rewrite HLz.
  eexists. split; [reflexivity|].
  cbn [NaN.mean NaN.covariance mean covariance NaN.atleast_1d atleast_1d].
  split.
  - apply finite_squeeze, finite_add; [apply finite_of_array|].
    apply finite_matmul.
    + apply finite_transpose, finite_solve_triangular;
        [apply finite_transpose, HL|].
      apply finite_solve_triangular; [exact HL|apply finite_of_array].
    + apply finite_sub; apply finite_of_array.
  - repeat first
      [ apply finite_of_array | exact HL | apply finite_add | apply finite_sub
      | apply finite_matmul | apply finite_transpose
      | apply finite_solve_triangular ].
Qed.

Lemma whitened_predict_on_finite_path (self : WhitenedVariationalGaussian.t)
  (params : Params.t) (Lz T : Array) :
  cholesky (VariationalGaussian.jittered_Kzz self params) = Some Lz ->
  exists f,
    WhitenedVariationalGaussian.predict self params = Some f
    /\ finite_vector_as
         (NaN.mean (NaN.WhitenedVariationalGaussian.predict self params T))
         (mean (f T))
    /\ finite_as
         (NaN.covariance (NaN.WhitenedVariationalGaussian.predict self params T))
         (covariance (f T)).
Proof.
  intros HLz. pose proof (finite_cholesky _ _ HLz) as HL.
  unfold WhitenedVariationalGaussian.predict,
    NaN.WhitenedVariationalGaussian.predict.
  name_jittered_Kzz self params. rewrite HLz.
  eexists. split; [reflexivity|].
  cbn [NaN.mean NaN.covariance mean covariance NaN.atleast_1d atleast_1d].
  split.
  - apply finite_squeeze.
    repeat first
      [ apply finite_of_array | exact HL | apply finite_add | apply finite_sub
      | apply finite_matmul | apply finite_transpose
      | apply finite_solve_triangular ].
  - repeat first
      [ apply finite_of_array | exact HL | apply finite_add | apply finite_sub
      | apply finite_matmul | apply finite_transpose
      | apply finite_solve_triangular ].
Qed.


(** ** What the results depend on *)

(** C10.  Two instances that have the same prior, jitter and
    [num_inducing] give the same [prior_kl] and the same [predict], in
    both families, on every parameter dictionary: the stored
    [inducing_inputs], [variational_mean], [variational_root_covariance]
    (and [name] and [diag]) of the instance are never read. *)
Theorem results_ignore_stored_arrays
  (self self' : VariationalGaussian.t) (params : Params.t) :
  VariationalGaussian.prior self = VariationalGaussian.prior self' ->
  VariationalGaussian.jitter self = VariationalGaussian.jitter self' ->
  VariationalGaussian.num_inducing self = VariationalGaussian.num_inducing self' ->
  VariationalGaussian.prior_kl self params
  = VariationalGaussian.prior_kl self' params
  /\ VariationalGaussian.predict self params
     = VariationalGaussian.predict self' params
  /\ WhitenedVariationalGaussian.prior_kl self params
     = WhitenedVariationalGaussian.prior_kl self' params
  /\ WhitenedVariationalGaussian.predict self params
     = WhitenedVariationalGaussian.predict self' params.
Proof.
  intros Hp Hj Hn.
  unfold VariationalGaussian.prior_kl, VariationalGaussian.predict,
    WhitenedVariationalGaussian.prior_kl, WhitenedVariationalGaussian.predict.
  rewrite Hp, Hj, Hn. repeat split.
Qed.

(** ** The KL terms *)




(** ** The diag flag and the registry *)

(** C6.  [prior_kl] and [predict] never read the [diag] flag: for a
    parameter dictionary of the shapes of the data model (a root of shape
    (M, M), dense or diagonal) whose jittered Kzz is positive definite,
    they return their result, and it is the result of the same family
    with the other value of the flag. *)
Theorem diag_flag_is_never_consulted
  (self : VariationalGaussian.t) (params : Params.t) (d : bool) :
  well_shaped self params ->
  positive_definite (VariationalGaussian.jittered_Kzz self params) ->
  (exists kl,
     VariationalGaussian.prior_kl (VariationalGaussian.set_diag self d) params = Some kl
     /\ VariationalGaussian.prior_kl self params = Some kl)
  /\ (exists f,
        VariationalGaussian.predict (VariationalGaussian.set_diag self d) params = Some f
        /\ VariationalGaussian.predict self params = Some f)
  /\ (exists f,
        WhitenedVariationalGaussian.predict (VariationalGaussian.set_diag self d) params
        = Some f
        /\ WhitenedVariationalGaussian.predict self params = Some f)
  /\ WhitenedVariationalGaussian.prior_kl (VariationalGaussian.set_diag self d) params
     = WhitenedVariationalGaussian.prior_kl self params.
Proof.
  intros _ Hpd. destruct (cholesky_complete _ Hpd) as [Lz HLz].
  unfold VariationalGaussian.prior_kl, VariationalGaussian.predict,
    WhitenedVariationalGaussian.predict, WhitenedVariationalGaussian.prior_kl.
  cbn [VariationalGaussian.set_diag VariationalGaussian.prior
       VariationalGaussian.jitter VariationalGaussian.num_inducing].
  name_jittered_Kzz self params.
  rewrite HLz.
  split; [eexists; split; reflexivity|].
  split; [eexists; split; reflexivity|].
  split; [eexists; split; reflexivity|].
  reflexivity.
Qed.

(** Construction with default arrays registers the three transforms. *)
Lemma default_arrays_are_registered prior z name d j registry :
  let registry' :=
    snd (VariationalGaussian.new prior z name None None d j registry) in
  registered "inducing_inputs" registry' = Some Identity
  /\ registered "variational_mean" registry' = Some Identity
  /\ registered "variational_root_covariance" registry'
     = Some (if d then FillDiagonal else FillTriangular).
Proof. destruct d; repeat split. Qed.

(** Construction with supplied arrays leaves their registrations as they
    were. *)
Lemma supplied_arrays_leave_registry prior z name mu root d j registry :
  let registry' :=
    snd (VariationalGaussian.new prior z name (Some mu) (Some root) d j registry) in
  registry' = add_parameter "inducing_inputs" Identity registry.
Proof. reflexivity. Qed.

(** C4.  Constructing a family with [diag=True] and a supplied mean and
    root covariance, on an empty registry, registers the identity for the
    inducing inputs and nothing for the variational mean or the root
    covariance. *)
Theorem supplied_initial_values_are_not_registered :
  let registry :=
    snd (VariationalGaussian.new ex_prior ex_z2 "Gaussian"
           (Some (zeros2 2 1)) (Some (utils.I 2)) true 1 []) in
  registered "inducing_inputs" registry = Some Identity
  /\ registered "variational_mean" registry = None
  /\ registered "variational_root_covariance" registry = None.
Proof. repeat split. Qed.

(** * The properties at concrete inputs *)

Lemma ex_jittered_Kzz1_positive_definite :
  positive_definite (VariationalGaussian.jittered_Kzz ex_family1 ex_params1).
Proof.
  intros x [i [Hi Hx]]. simpl in Hi.
  assert (i = O) by lia. subst i.
  unfold qf. simpl. nra.
Qed.

Lemma ex_jittered_Kzz2_positive_definite :
  positive_definite (VariationalGaussian.jittered_Kzz ex_family2_diag ex_params2).
Proof.
  intros x [i [Hi Hx]]. simpl in Hi.
  unfold qf. simpl.
  assert (Hc : x O <> 0 \/ x 1%nat <> 0).
  { destruct i as [|[|i]]; [left|right|lia]; exact Hx. }
  pose proof (Rle_0_sqr (x O + x 1%nat)) as H1.
  pose proof (Rle_0_sqr (x O)) as H2. pose proof (Rle_0_sqr (x 1%nat)) as H3.
  unfold Rsqr in H1, H2, H3.
  destruct Hc as [Hc|Hc]; apply Rsqr_pos_lt in Hc; unfold Rsqr in Hc; lra.
Qed.



Lemma ex_well_shaped1 : well_shaped ex_family1 ex_params1.
Proof. repeat split. Qed.

Lemma ex_joint_positive_semidefinite :
  positive_semidefinite (joint_prior_covariance ex_family1 ex_params1 ex_t1).
Proof.
  intros x. unfold qf. simpl. unfold block_joint. simpl.
  pose proof (Rle_0_sqr (x O + x 1%nat)) as H. unfold Rsqr in H. lra.
Qed.

Lemma ex_well_shaped2 : well_shaped ex_family2_diag ex_params2.
Proof. repeat split. Qed.


(** C2 at one inducing point at 0 and one test point at 1, under the
    constant kernel with jitter 1, mu = [[3]] and sqrt = [[2]]: there
    Lz = [[sqrt 2]], A = [[1 / sqrt 2]], B = [[1 / 2]], so the mean is
    3 / 2 and the variance 1 - 1/2 + 1 + 1 = 5 / 2. *)
Lemma VariationalGaussian_predict_closed_form_witness :
  well_shaped ex_family1 ex_params1
  /\ positive_definite (VariationalGaussian.jittered_Kzz ex_family1 ex_params1)
  /\ exists predict_fn,
       VariationalGaussian.predict ex_family1 ex_params1 = Some predict_fn
       /\ coord (mean (predict_fn ex_t1)) 0%nat = 3 / 2
       /\ entry (covariance (predict_fn ex_t1)) 0%nat 0%nat = 5 / 2.
Proof.
  split; [exact ex_well_shaped1|].
  split; [exact ex_jittered_Kzz1_positive_definite|].
  destruct (VariationalGaussian_predict_closed_form ex_family1 ex_params1 ex_t1
              ex_well_shaped1 ex_jittered_Kzz1_positive_definite)
    as (Lz & A & B & f & _ & _ & _ & HLL & _ & HA & _ & HB & Hf & _ & Hmean
        & _ & _ & Hcov).
  specialize (HLL O O (Nat.lt_0_succ _) (Nat.lt_0_succ _)).
  specialize (HA O O (Nat.lt_0_succ _) (Nat.lt_0_succ _)).
  specialize (HB O O (Nat.lt_0_succ _) (Nat.lt_0_succ _)).
  specialize (Hmean O (Nat.lt_0_succ _)).
  specialize (Hcov O O (Nat.lt_0_succ _) (Nat.lt_0_succ _)).
  unfold closed_form_mean in Hmean. unfold closed_form_covariance in Hcov.
  simpl in HLL, HA, HB, Hmean, Hcov.
  set (l := entry Lz O O) in *. set (a := entry A O O) in *.
  set (b := entry B O O) in *.
  assert (Hb : 2 * b = 1).
  { transitivity (l * (l * b)); [|nra].
    replace 2 with (l * l) by lra. ring. }
  assert (Ha : 2 * (a * a) = 1).
  { transitivity ((l * a) * (l * a)); [|nra].
    replace 2 with (l * l) by lra. ring. }
  exists f. split; [exact Hf|]. split.
  - rewrite Hmean. lra.
  - rewrite Hcov. replace b with (1 / 2) by lra. lra.
Defined.

(** C3 at the same input: A = [[1 / sqrt 2]], so the mean is 3 / sqrt 2
    and the variance 1 - 1/2 + 2 + 1 = 7 / 2. *)
Lemma WhitenedVariationalGaussian_predict_closed_form_witness :
  well_shaped ex_family1 ex_params1
  /\ positive_definite (VariationalGaussian.jittered_Kzz ex_family1 ex_params1)
  /\ exists predict_fn,
       WhitenedVariationalGaussian.predict ex_family1 ex_params1 = Some predict_fn
       /\ coord (mean (predict_fn ex_t1)) 0%nat = 3 / sqrt 2
       /\ entry (covariance (predict_fn ex_t1)) 0%nat 0%nat = 7 / 2.
Proof.
  split; [exact ex_well_shaped1|].
  split; [exact ex_jittered_Kzz1_positive_definite|].
  destruct (WhitenedVariationalGaussian_predict_closed_form
              ex_family1 ex_params1 ex_t1
              ex_well_shaped1 ex_jittered_Kzz1_positive_definite)
    as (Lz & A & f & _ & _ & Hpos & HLL & _ & HA & Hf & _ & Hmean
        & _ & _ & Hcov).
  specialize (Hpos O (Nat.lt_0_succ _)).
  specialize (HLL O O (Nat.lt_0_succ _) (Nat.lt_0_succ _)).
  specialize (HA O O (Nat.lt_0_succ _) (Nat.lt_0_succ _)).
  specialize (Hmean O (Nat.lt_0_succ _)).
  specialize (Hcov O O (Nat.lt_0_succ _) (Nat.lt_0_succ _)).
  unfold closed_form_mean in Hmean. unfold closed_form_covariance in Hcov.
  simpl in Hpos, HLL, HA, Hmean, Hcov.
  set (l := entry Lz O O) in *. set (a := entry A O O) in *.
  assert (Hl : sqrt 2 = l) by (apply sqrt_lem_1; lra).
  assert (Ha : 2 * (a * a) = 1).
  { transitivity ((l * a) * (l * a)); [|nra].
    replace 2 with (l * l) by lra. ring. }
  exists f. split; [exact Hf|]. split.
  - rewrite Hmean, Hl. replace a with (1 / l) by (field_simplify_eq; lra).
    field. lra.
  - rewrite Hcov. lra.
Defined.



(** C6: a family constructed with [diag=True] is handed the dense
    lower-triangular root [[1, 0], [1, 1]]; [prior_kl] and [predict]
    return their results and no error. *)
Lemma dense_root_on_diag_family_is_accepted :
  VariationalGaussian.diag ex_family2_diag = true
  /\ lower_triangular (param_sqrt ex_params2)
  /\ entry (param_sqrt ex_params2) 1%nat 0%nat <> 0
  /\ (exists kl, VariationalGaussian.prior_kl ex_family2_diag ex_params2 = Some kl)
  /\ (exists f, VariationalGaussian.predict ex_family2_diag ex_params2 = Some f)
  /\ (exists f, WhitenedVariationalGaussian.predict ex_family2_diag ex_params2 = Some f).
Proof.
  destruct (cholesky_complete _ ex_jittered_Kzz2_positive_definite) as [Lz HLz].
  split; [reflexivity|].
  split.
  { intros i j Hij Hj. simpl. destruct (Nat.leb_spec j i); [lia|reflexivity]. }
  split; [simpl; lra|].
  unfold VariationalGaussian.prior_kl, VariationalGaussian.predict,
    WhitenedVariationalGaussian.predict.
  name_jittered_Kzz ex_family2_diag ex_params2.
  rewrite HLz. repeat split; eexists; reflexivity.
Qed.

(** C6 at the same family and root: the result does not change with the
    flag. *)
Lemma diag_flag_is_never_consulted_witness :
  well_shaped ex_family2_diag ex_params2
  /\ positive_definite (VariationalGaussian.jittered_Kzz ex_family2_diag ex_params2)
  /\ VariationalGaussian.predict (VariationalGaussian.set_diag ex_family2_diag false)
       ex_params2
     = VariationalGaussian.predict ex_family2_diag ex_params2.
Proof.
  split; [exact ex_well_shaped2|].
  split; [exact ex_jittered_Kzz2_positive_definite|].
  destruct (diag_flag_is_never_consulted ex_family2_diag ex_params2 false
              ex_well_shaped2 ex_jittered_Kzz2_positive_definite)
    as (_ & (f & Hf1 & Hf2) & _).
  rewrite Hf1, Hf2. reflexivity.
Defined.





(** C9 at one inducing point and one test point. *)
Lemma predict_covariance_symmetric_with_nonneg_diagonal_witness :
  positive_definite (VariationalGaussian.jittered_Kzz ex_family1 ex_params1)
  /\ symmetric (prior_Ktt ex_family1 ex_params1 ex_t1)
  /\ positive_semidefinite (joint_prior_covariance ex_family1 ex_params1 ex_t1)
  /\ exists fu fw,
       VariationalGaussian.predict ex_family1 ex_params1 = Some fu
       /\ WhitenedVariationalGaussian.predict ex_family1 ex_params1 = Some fw
       /\ symmetric (covariance (fu ex_t1))
       /\ symmetric (covariance (fw ex_t1))
       /\ 0 <= entry (covariance (fu ex_t1)) 0%nat 0%nat
       /\ 0 <= entry (covariance (fw ex_t1)) 0%nat 0%nat.
Proof.
  assert (Hs : symmetric (prior_Ktt ex_family1 ex_params1 ex_t1))
    by (split; [reflexivity|intros i j _ _; reflexivity]).
  split; [exact ex_jittered_Kzz1_positive_definite|].
  split; [exact Hs|].
  split; [exact ex_joint_positive_semidefinite|].
  destruct (predict_covariance_symmetric_with_nonneg_diagonal
              ex_family1 ex_params1 ex_t1
              ex_jittered_Kzz1_positive_definite Hs)
    as (fu & fw & Hu & Hw & Su & Sw & Hdiag).
  exists fu, fw.
  assert (Hj : 0 <= VariationalGaussian.jitter ex_family1) by (simpl; lra).
  destruct (Hdiag Hj ex_joint_positive_semidefinite O) as [Du Dw];
    [simpl; lia|].
  split; [exact Hu|]. split; [exact Hw|]. split; [exact Su|].
  split; [exact Sw|]. split; [exact Du|exact Dw].
Defined.

(** C10 at two instances that differ in every stored array. *)
Lemma results_ignore_stored_arrays_witness :
  VariationalGaussian.inducing_inputs ex_family1
  <> VariationalGaussian.inducing_inputs ex_family1_other
  /\ VariationalGaussian.predict ex_family1 ex_params1
     = VariationalGaussian.predict ex_family1_other ex_params1
  /\ VariationalGaussian.prior_kl ex_family1 ex_params1
     = VariationalGaussian.prior_kl ex_family1_other ex_params1.
Proof.
  split.
  - simpl. unfold ex_z1, ex_t1. intros H.
    assert (E : entry (mkArray 1 1 (fun _ _ => 0)) O O
                = entry (mkArray 1 1 (fun _ _ => 1)) O O)
      by (rewrite H; reflexivity).
    simpl in E. lra.
  - destruct (results_ignore_stored_arrays ex_family1 ex_family1_other ex_params1
                eq_refl eq_refl eq_refl) as (Hkl & Hp & _).
    split; assumption.
Defined.

(** * Further properties of the source *)

(** ** The Diagonal and FillDiagonal transforms *)

(** X1.  [Diagonal.inverse] undoes [Diagonal.forward]: the diagonal of
    [diagflat v] is [v]. *)
Theorem Diagonal_inverse_forward (v : Vector) :
  vector_eq (inverse DiagonalLambda (forward DiagonalLambda v)) v.
Proof.
  split; simpl.
  - apply Nat.min_id.
  - intros i _. rewrite Nat.eqb_refl. reflexivity.
Qed.

(** X2.  On a square array, [Diagonal.forward] after [Diagonal.inverse]
    gives the array back exactly when the array is diagonal: the inverse
    keeps the diagonal only. *)
Theorem Diagonal_forward_inverse_iff_diagonal (a : Array) :
  shape0 a = shape1 a ->
  (array_eq (forward DiagonalLambda (inverse DiagonalLambda a)) a
   <-> is_diagonal a).
Proof.
  intros Hsq. split.
  - intros (_ & _ & He) i j Hi Hj Hij.
    simpl in He. rewrite <- Hsq, Nat.min_id in He.
    rewrite <- (He i j) by lia.
    destruct (Nat.eqb_spec i j); [contradiction|reflexivity].
  - intros Hd. unfold array_eq. simpl. rewrite <- Hsq, Nat.min_id.
    split; [reflexivity|]. split; [reflexivity|].
    intros i j Hi Hj. destruct (Nat.eqb_spec i j) as [->|Hne]; [reflexivity|].
    symmetry. apply Hd; [exact Hi|rewrite <- Hsq; exact Hj|exact Hne].
Qed.

Lemma Diagonal_forward_inverse_iff_diagonal_witness :
  shape0 (utils.I 2) = shape1 (utils.I 2)
  /\ array_eq (forward DiagonalLambda (inverse DiagonalLambda (utils.I 2))) (utils.I 2)
  /\ ~ array_eq (forward DiagonalLambda (inverse DiagonalLambda ex_dense_root))
         ex_dense_root.
Proof.
  split; [reflexivity|]. split.
  - apply (proj2 (Diagonal_forward_inverse_iff_diagonal (utils.I 2) eq_refl)).
    intros i j _ _ Hij. simpl. destruct (Nat.eqb_spec i j); [contradiction|reflexivity].
  - intros H.
    pose proof (proj1 (Diagonal_forward_inverse_iff_diagonal ex_dense_root eq_refl) H
                  1%nat 0%nat) as Hd.
    simpl in Hd. assert (1 = 0) by (apply Hd; lia). lra.
Defined.

Lemma softplus_pos x : 0 < ln (1 + exp x).
Proof.
  rewrite <- ln_1. apply ln_increasing; [lra|].
  pose proof (exp_pos x). lra.
Qed.

Lemma softplus_inverse_forward x : ln (exp (ln (1 + exp x)) - 1) = x.
Proof.
  pose proof (exp_pos x).
  rewrite exp_ln by lra.
  replace (1 + exp x - 1) with (exp x) by ring. apply ln_exp.
Qed.

(** X3.  [FillDiagonal.forward] turns any vector into a square diagonal
    array with a positive diagonal, hence a lower-triangular root with a
    nonzero diagonal, and [FillDiagonal.inverse] gives the vector back. *)
Theorem FillDiagonal_forward_is_valid_root (v : Vector) :
  let a := forward FillDiagonalLambda v in
  shape0 a = size v /\ shape1 a = size v
  /\ is_diagonal a
  /\ lower_triangular a
  /\ diag_pos (size v) (entry a)
  /\ diagonal_nonzero a
  /\ vector_eq (inverse FillDiagonalLambda a) v.
Proof.
  simpl. split; [reflexivity|]. split; [reflexivity|].
  split.
  { intros i j _ _ Hij. simpl.
    destruct (Nat.eqb_spec i j); [contradiction|reflexivity]. }
  split.
  { intros i j Hij _. simpl. destruct (Nat.eqb_spec i j); [lia|reflexivity]. }
  split.
  { intros i _. simpl. rewrite Nat.eqb_refl. apply softplus_pos. }
  split.
  { intros i _. simpl. rewrite Nat.eqb_refl.
    pose proof (softplus_pos (coord v i)). lra. }
  split; simpl.
  - apply Nat.min_id.
  - intros i _. rewrite Nat.eqb_refl. apply softplus_inverse_forward.
Qed.

(** ** Construction and the registry *)

Lemma registered_add_parameter_same name b registry :
  registered name (add_parameter name b registry) = Some b.
Proof. simpl. rewrite String.eqb_refl. reflexivity. Qed.

Lemma registered_add_parameter_other name name' b registry :
  name' <> name ->
  registered name (add_parameter name' b registry) = registered name registry.
Proof.
  intros Hne. simpl. destruct (String.eqb_spec name' name); [contradiction|reflexivity].
Qed.

(** X4.  What construction does to the registry, for every parameter
    name: the inducing inputs get the identity; the variational mean gets
    the identity when it was defaulted; the root covariance gets
    [FillDiagonal] or [FillTriangular], by the [diag] flag, when it was
    defaulted; every other registration, and that of a supplied array, is
    what it was before. *)
Theorem construction_registry_effect
  (prior : Prior.t) (z : Array) (name : string) (mu root : option Array)
  (d : bool) (j : R) (registry : Registry) (param_name : string) :
  registered param_name
    (snd (VariationalGaussian.new prior z name mu root d j registry))
  = if String.eqb "variational_root_covariance" param_name
    then match root with
         | None => Some (if d then FillDiagonal else FillTriangular)
         | Some _ => registered param_name registry
         end
    else if String.eqb "variational_mean" param_name
    then match mu with
         | None => Some Identity
         | Some _ => registered param_name registry
         end
    else if String.eqb "inducing_inputs" param_name
    then Some Identity
    else registered param_name registry.
Proof.
  unfold VariationalGaussian.new, VariationalGaussian.__post_init__.
  destruct (String.eqb_spec "variational_root_covariance" param_name) as [<-|Hr];
    [|destruct (String.eqb_spec "variational_mean" param_name) as [<-|Hm];
      [|destruct (String.eqb_spec "inducing_inputs" param_name) as [<-|Hz]]];
    destruct mu, root, d; cbn [snd fst VariationalGaussian.variational_mean
      VariationalGaussian.variational_root_covariance VariationalGaussian.diag
      VariationalGaussian.set_num_inducing VariationalGaussian.set_variational_mean
      VariationalGaussian.set_variational_root_covariance];
    repeat first
      [ rewrite registered_add_parameter_same
      | rewrite registered_add_parameter_other by (first [assumption|discriminate]) ];
    reflexivity.
Qed.

(** X5.  Registrations persist across constructions: a family constructed
    with a supplied root after a family that defaulted its root finds the
    transform of the earlier family registered, chosen by the earlier
    family's [diag] flag and not by its own. *)
Theorem supplied_root_inherits_earlier_transform
  (prior1 prior2 : Prior.t) (z1 z2 : Array) (name1 name2 : string)
  (mu1 mu2 : option Array) (root2 : Array) (d1 d2 : bool) (j1 j2 : R)
  (registry : Registry) :
  let registry1 :=
    snd (VariationalGaussian.new prior1 z1 name1 mu1 None d1 j1 registry) in
  let registry2 :=
    snd (VariationalGaussian.new prior2 z2 name2 mu2 (Some root2) d2 j2 registry1) in
  registered "variational_root_covariance" registry2
  = Some (if d1 then FillDiagonal else FillTriangular).
Proof.
  unfold VariationalGaussian.new, VariationalGaussian.__post_init__.
  destruct mu1, mu2, d1; reflexivity.
Qed.

(** After construction the family has its parameter dictionary: the
    inducing inputs as given, a supplied mean or root as given, and for a
    defaulted one the zero column of shape (M, 1) or the identity of
    size M. *)
Lemma constructed_family_params
  (prior : Prior.t) (z : Array) (name : string) (mu root : option Array)
  (d : bool) (j : R) (registry : Registry) (kp mp : Dict) :
  let self := fst (VariationalGaussian.new prior z name mu root d j registry) in
  VariationalGaussian.num_inducing self = shape0 z
  /\ VariationalGaussian.params self kp mp
     = Some (Params.mk kp mp
               (Params.mk_variational_family z
                  (match mu with Some a => a | None => zeros2 (shape0 z) 1 end)
                  (match root with Some a => a | None => utils.I (shape0 z) end))).
Proof. destruct mu, root; split; reflexivity. Qed.

(** ** More on triangular systems and quadratic forms *)



Lemma qf_add n X Y v :
  qf n (fun i j => X i j + Y i j) v = qf n X v + qf n Y v.
Proof.
  unfold qf. rewrite <- rsum_plus. apply rsum_ext; intros i _.
  rewrite <- rsum_plus. apply rsum_ext; intros j _. ring.
Qed.

Lemma qf_sub n X Y v :
  qf n (fun i j => X i j - Y i j) v = qf n X v - qf n Y v.
Proof.
  unfold qf. rewrite <- rsum_minus. apply rsum_ext; intros i _.
  rewrite <- rsum_minus. apply rsum_ext; intros j _. ring.
Qed.

(** The quadratic form of [C C^T], for [C] with [p] columns, is a sum of
    squares. *)
Lemma qf_outer n p (C : Mat) v :
  qf n (fun i j => rsum p (fun l => C i l * C j l)) v
  = rsum p (fun l => rsum n (fun i => v i * C i l) * rsum n (fun i => v i * C i l)).
Proof.
  unfold qf.
  rewrite (rsum_ext p
     (fun l => rsum n (fun i => v i * C i l) * rsum n (fun i => v i * C i l))
     (fun l => rsum n (fun i => rsum n (fun j => v i * (C i l * C j l) * v j)))).
  - rewrite (rsum_swap p n (fun l i => rsum n (fun j => v i * (C i l * C j l) * v j))).
    apply rsum_ext; intros i _.
    rewrite (rsum_swap p n (fun l j => v i * (C i l * C j l) * v j)).
    apply rsum_ext; intros j _.
    rewrite <- rsum_scal_l, <- rsum_scal_r. reflexivity.
  - intros l _. rewrite rsum_mult. apply rsum_ext; intros i _.
    apply rsum_ext; intros j _. ring.
Qed.

Lemma qf_outer_nonneg n p C v :
  0 <= qf n (fun i j => rsum p (fun l => C i l * C j l)) v.
Proof.
  rewrite qf_outer. apply rsum_nonneg; intros l _.
  apply Rle_0_sqr.
Qed.

Lemma qf_identity n c v :
  qf n (fun i j => (if (i =? j)%nat then 1 else 0) * c) v
  = c * rsum n (fun k => v k * v k).
Proof.
  unfold qf. rewrite <- rsum_scal_l. apply rsum_ext; intros i Hi.
  rewrite (rsum_ext n _ (fun j => if (j =? i)%nat then c * (v i * v j) else 0)).
  - apply (rsum_delta n i (fun j => c * (v i * v j))). exact Hi.
  - intros j _. rewrite (Nat.eqb_sym j i). destruct (i =? j)%nat; ring.
Qed.

Lemma rsum_sq_pos n v :
  nonzero_vec n v -> 0 < rsum n (fun k => v k * v k).
Proof.
  intros [i [Hi Hv]].
  assert (Hnn : forall k, (k < n)%nat -> 0 <= v k * v k)
    by (intros; apply Rle_0_sqr).
  pose proof (rsum_ge_term n (fun k => v k * v k) i Hnn Hi) as Hge.
  simpl in Hge. pose proof (Rsqr_pos_lt _ Hv) as Hp. unfold Rsqr in Hp. lra.
Qed.

(** The conditional covariance is positive semi-definite: for a positive
    semi-definite joint matrix [[Kzz, Kzt], [Kzt^T, Ktt]], a jitter that
    is not negative and [L] a root of the symmetric part of the jittered
    Kzz, with [A = L^-1 Kzt], the quadratic form of [Ktt - A^T A] is not
    negative. *)
Lemma conditional_covariance_psd m n Kzz Kzt Ktt c L v :
  possemidef (m + n) (block_joint m Kzz Kzt Ktt) ->
  0 <= c ->
  lower_tri m L -> diag_nonzero m L ->
  (forall p q, (p < m)%nat -> (q < m)%nat ->
     mmul m L (mtrans L) p q
     = symmetrize (fun i j => Kzz i j + (if (i =? j)%nat then 1 else 0) * c) p q) ->
  0 <= qf n (fun i j =>
               Ktt i j
               - rsum m (fun k => forward_subst m L (fun l => Kzt l i) k
                                  * forward_subst m L (fun l => Kzt l j) k)) v.
Proof.
  intros Hpsd Hc Hl Hd Hf.
  set (A := fun k i => forward_subst m L (fun l => Kzt l i) k).
  set (kap := fun k => rsum n (fun j => Kzt k j * v j)).
  set (a := fun k => rsum n (fun j => A k j * v j)).
  set (y := back_subst m (mtrans L) a).
  set (s := rsum m (fun k => a k * a k)).
  assert (HLA : forall k j, (k < m)%nat -> rsum m (fun l => L k l * A l j) = Kzt k j).
  { intros k j Hk. unfold A.
    apply (forward_subst_correct m L (fun l => Kzt l j) Hl Hd k Hk). }
  assert (HLa : forall k, (k < m)%nat -> rsum m (fun l => L k l * a l) = kap k).
  { intros k Hk. unfold a, kap.
    rewrite (rsum_ext m _ (fun l => rsum n (fun j => L k l * A l j * v j)))
      by (intros l _; rewrite <- rsum_scal_l; apply rsum_ext; intros; ring).
    rewrite rsum_swap. apply rsum_ext; intros j _.
    rewrite <- (HLA k j Hk), <- rsum_scal_r. reflexivity. }
  assert (HLy : forall l, (l < m)%nat -> rsum m (fun k => L k l * y k) = a l).
  { intros l Hl'.
    apply (back_subst_correct m (mtrans L) a (upper_tri_mtrans m L Hl)
             (fun k Hk => Hd k Hk) l Hl'). }
  (* v^T A^T A v = s *)
  assert (E0 : qf n (fun i j => rsum m (fun k => A k i * A k j)) v = s).
  { rewrite (qf_outer n m (fun i k => A k i) v). unfold s, a.
    apply rsum_ext; intros k _.
    rewrite (rsum_ext n (fun i => v i * A k i) (fun j => A k j * v j))
      by (intros; ring).
    reflexivity. }
  (* y . kap = s *)
  assert (E1 : rsum m (fun k => y k * kap k) = s).
  { rewrite (rsum_ext m _ (fun k => rsum m (fun l => y k * L k l * a l))).
    - rewrite rsum_swap. unfold s. apply rsum_ext; intros l Hl'.
      transitivity (rsum m (fun k => L k l * y k) * a l);
        [|rewrite (HLy l Hl'); reflexivity].
      rewrite <- rsum_scal_r. apply rsum_ext; intros k _. ring.
    - intros k Hk. rewrite <- (HLa k Hk), <- rsum_scal_l.
      apply rsum_ext; intros l _. ring. }
  (* s = y^T (Kzz + c I) y *)
  assert (E2 : s = qf m Kzz y + c * rsum m (fun k => y k * y k)).
  { rewrite <- qf_jitter, <- qf_symmetrize.
    rewrite <- (qf_ext m (mmul m L (mtrans L)) _ y y Hf (fun _ _ => eq_refl)).
    rewrite qf_gram. unfold s. apply rsum_ext; intros l Hl'.
    rewrite (HLy l Hl'). reflexivity. }
  (* the joint quadratic form at (-y, v) *)
  pose (w := fun k : nat => if (k <? m)%nat then - y k else v (k - m)%nat).
  pose proof (Hpsd w) as Hq. rewrite qf_block in Hq.
  assert (Q1 : qf m (block_joint m Kzz Kzt Ktt) w = qf m Kzz y).
  { rewrite <- (qf_neg m Kzz y). apply qf_ext.
    - intros p q Hp Hq'. unfold block_joint.
      destruct (Nat.ltb_spec p m); [|lia].
      destruct (Nat.ltb_spec q m); [|lia]. reflexivity.
    - intros p Hp. unfold w. destruct (Nat.ltb_spec p m); [|lia]. reflexivity. }
  assert (Q2 : rsum m (fun p => rsum n (fun q =>
                 w p * block_joint m Kzz Kzt Ktt p (m + q)%nat * w (m + q)%nat))
               = - s).
  { rewrite <- E1, <- rsum_opp. apply rsum_ext; intros p Hp.
    unfold kap. rewrite <- rsum_scal_l, <- rsum_opp.
    apply rsum_ext; intros q Hq'. unfold w, block_joint.
    destruct (Nat.ltb_spec p m); [|lia].
    destruct (Nat.ltb_spec (m + q) m); [lia|].
    replace (m + q - m)%nat with q by lia. ring. }
  assert (Q3 : rsum n (fun p => rsum m (fun q =>
                 w (m + p)%nat * block_joint m Kzz Kzt Ktt (m + p)%nat q * w q))
               = - s).
  { rewrite <- E1, <- rsum_opp. rewrite rsum_swap.
    apply rsum_ext; intros q Hq'.
    unfold kap. rewrite <- rsum_scal_l, <- rsum_opp.
    apply rsum_ext; intros p Hp. unfold w, block_joint.
    destruct (Nat.ltb_spec q m); [|lia].
    destruct (Nat.ltb_spec (m + p) m); [lia|].
    replace (m + p - m)%nat with p by lia. ring. }
  assert (Q4 : qf n (fun p q => block_joint m Kzz Kzt Ktt (m + p)%nat (m + q)%nat)
                 (fun p => w (m + p)%nat) = qf n Ktt v).
  { apply qf_ext.
    - intros p q Hp Hq'. unfold block_joint.
      destruct (Nat.ltb_spec (m + p) m); [lia|].
      destruct (Nat.ltb_spec (m + q) m); [lia|].
      replace (m + p - m)%nat with p by lia.
      replace (m + q - m)%nat with q by lia. reflexivity.
    - intros p Hp. unfold w.
      destruct (Nat.ltb_spec (m + p) m); [lia|].
      replace (m + p - m)%nat with p by lia. reflexivity. }
  rewrite Q1, Q2, Q3, Q4 in Hq.
  assert (0 <= rsum m (fun k => y k * y k))
    by (apply rsum_nonneg; intros; apply Rle_0_sqr).
  change (0 <= qf n (fun i j => Ktt i j - rsum m (fun k => A k i * A k j)) v).
  rewrite (qf_sub n Ktt (fun i j => rsum m (fun k => A k i * A k j)) v), E0.
  assert (0 <= c * rsum m (fun k => y k * y k))
    by (apply Rmult_le_pos; assumption).
  lra.
Qed.

(** ** The families at the prior *)

(** X6.  A family constructed with default arrays has a parameter
    dictionary of the shapes of the data model, with the zero mean and
    the identity root (lower triangular, nonzero diagonal), and
    [prior_kl] of the whitened family at that dictionary is 0. *)
Theorem fresh_whitened_family_has_zero_prior_kl
  (prior : Prior.t) (z : Array) (name : string) (d : bool) (j : R)
  (registry : Registry) (kp mp : Dict) :
  let self := fst (VariationalGaussian.new prior z name None None d j registry) in
  exists p,
    VariationalGaussian.params self kp mp = Some p
    /\ well_shaped self p
    /\ array_eq (param_mu p) (zeros2 (shape0 z) 1)
    /\ array_eq (param_sqrt p) (utils.I (shape0 z))
    /\ lower_triangular (param_sqrt p)
    /\ diagonal_nonzero (param_sqrt p)
    /\ WhitenedVariationalGaussian.prior_kl self p = 0.
Proof.
  cbv zeta. eexists. split; [reflexivity|].
  split; [repeat split|].
  split; [apply array_eq_refl|]. split; [apply array_eq_refl|].
  split; [apply (identity_lower_tri (shape0 z) (shape0 z))|].
  split; [apply (identity_diag_nonzero (shape0 z) (shape0 z))|].
  unfold WhitenedVariationalGaussian.prior_kl.
  apply (kl_divergence_zero _ _ (shape0 z)); try reflexivity.
  - apply tril_lower_tri.
  - apply (identity_lower_tri (shape0 z) (shape0 z)).
  - apply (identity_diag_nonzero (shape0 z) (shape0 z)).
  - intros i k _ _.
    apply (tril_gram (utils.I (shape0 z)) (shape0 z) i k).
    apply (identity_lower_tri (shape0 z) (shape0 z)).
Qed.






(** ** The predictive covariance as a covariance *)

(** The quadratic form of the covariance [predict] assembles is at least
    that of [Ktt - A^T A] plus the jitter times the squared norm. *)
Lemma assembled_covariance_qf_bound Ktt A C n c v :
  0 <= qf (shape0 Ktt)
         (fun i j => entry Ktt i j
                     - rsum (shape0 A) (fun k => entry A k i * entry A k j)) v ->
  c * rsum (shape0 Ktt) (fun k => v k * v k)
  <= qf (shape0 Ktt)
       (entry (add (add (sub Ktt (matmul (transpose A) A))
                      (matmul C (transpose C)))
                 (mul_scalar (utils.I n) c))) v.
Proof.
  intros H.
  cbn [entry add sub mul_scalar matmul transpose shape0 shape1 utils.I].
  rewrite (qf_add (shape0 Ktt)
             (fun i j => entry Ktt i j - mmul (shape0 A) (mtrans (entry A)) (entry A) i j
                         + mmul (shape1 C) (entry C) (mtrans (entry C)) i j)
             (fun i j => (if (i =? j)%nat then 1 else 0) * c) v).
  rewrite (qf_add (shape0 Ktt)
             (fun i j => entry Ktt i j - mmul (shape0 A) (mtrans (entry A)) (entry A) i j)
             (fun i j => mmul (shape1 C) (entry C) (mtrans (entry C)) i j) v).
  rewrite qf_identity.
  pose proof (qf_outer_nonneg (shape0 Ktt) (shape1 C) (entry C) v) as HC.
  unfold mmul, mtrans. unfold mmul, mtrans in H. lra.
Qed.

(** X9.  For a dictionary of the shapes of the data model: when the
    jittered Kzz is positive definite, the jitter is not
    negative and the joint prior covariance over the inducing and the
    test points is positive semi-definite, the covariance returned by
    [predict] of either family is positive semi-definite; with a positive
    jitter it is positive definite. *)
Theorem predict_covariance_positive_semidefinite
  (self : VariationalGaussian.t) (params : Params.t) (T : Array) :
  well_shaped self params ->
  positive_definite (VariationalGaussian.jittered_Kzz self params) ->
  0 <= VariationalGaussian.jitter self ->
  positive_semidefinite (joint_prior_covariance self params T) ->
  exists fu fw,
    VariationalGaussian.predict self params = Some fu
    /\ WhitenedVariationalGaussian.predict self params = Some fw
    /\ positive_semidefinite (covariance (fu T))
    /\ positive_semidefinite (covariance (fw T))
    /\ (0 < VariationalGaussian.jitter self ->
        positive_definite (covariance (fu T))
        /\ positive_definite (covariance (fw T))).
Proof.
  intros _ Hpd Hjit Hpsd.
  destruct (cholesky_complete _ Hpd) as [Lz HLz].
  destruct (Lz_facts self params Lz HLz) as (H0 & H1 & Hl & Hd).
  destruct (cholesky_spec _ _ HLz) as (_ & _ & _ & _ & Hf).
  unfold VariationalGaussian.predict, WhitenedVariationalGaussian.predict.
  name_jittered_Kzz self params. rewrite HLz. do 2 eexists.
  split; [reflexivity|]. split; [reflexivity|].
  cbn [covariance].
  assert (Hcond : forall v,
            0 <= qf (shape0 (prior_Ktt self params T))
                   (fun i j =>
                      entry (prior_Ktt self params T) i j
                      - rsum (shape0 (solve_triangular Lz (prior_Kzt self params T) true))
                          (fun k =>
                             entry (solve_triangular Lz (prior_Kzt self params T) true) k i
                             * entry (solve_triangular Lz (prior_Kzt self params T) true) k j))
                   v).
  { intros v.
    pose proof (conditional_covariance_psd
                  (shape0 (param_z params)) (shape0 T)
                  (entry (prior_Kzz self params))
                  (entry (prior_Kzt self params T))
                  (entry (prior_Ktt self params T))
                  (VariationalGaussian.jitter self) (entry Lz) v
                  Hpsd Hjit Hl Hd Hf) as Hc.
    cbn [entry shape0 shape1 solve_triangular]. rewrite H0. exact Hc. }
  assert (Hsq : forall v, 0 <= rsum (shape0 (prior_Ktt self params T))
                                 (fun k => v k * v k))
    by (intros; apply rsum_nonneg; intros; apply Rle_0_sqr).
  split; [|split; [|intros Hpos; split]].
  - intros v.
    pose proof (assembled_covariance_qf_bound _ _
                  (matmul
                     (transpose
                        (solve_triangular (transpose Lz)
                           (solve_triangular Lz (prior_Kzt self params T) true) false))
                     (param_sqrt params))
                  (shape0 T) (VariationalGaussian.jitter self) v (Hcond v)) as Hb.
    pose proof (Rmult_le_pos _ _ Hjit (Hsq v)).
    unfold positive_semidefinite in *. cbn [shape0 add sub] in *.
    eapply Rle_trans; [|exact Hb]. assumption.
  - intros v.
    pose proof (assembled_covariance_qf_bound _ _
                  (matmul
                     (transpose (solve_triangular Lz (prior_Kzt self params T) true))
                     (param_sqrt params))
                  (shape0 T) (VariationalGaussian.jitter self) v (Hcond v)) as Hb.
    pose proof (Rmult_le_pos _ _ Hjit (Hsq v)).
    cbn [shape0 add sub] in *.
    eapply Rle_trans; [|exact Hb]. assumption.
  - intros v Hv.
    pose proof (assembled_covariance_qf_bound _ _
                  (matmul
                     (transpose
                        (solve_triangular (transpose Lz)
                           (solve_triangular Lz (prior_Kzt self params T) true) false))
                     (param_sqrt params))
                  (shape0 T) (VariationalGaussian.jitter self) v (Hcond v)) as Hb.
    cbn [shape0 add sub] in *.
    pose proof (Rmult_lt_0_compat _ _ Hpos (rsum_sq_pos _ _ Hv)) as Hlt.
    eapply Rlt_le_trans; [exact Hlt|exact Hb].
  - intros v Hv.
    pose proof (assembled_covariance_qf_bound _ _
                  (matmul
                     (transpose (solve_triangular Lz (prior_Kzt self params T) true))
                     (param_sqrt params))
                  (shape0 T) (VariationalGaussian.jitter self) v (Hcond v)) as Hb.
    cbn [shape0 add sub] in *.
    pose proof (Rmult_lt_0_compat _ _ Hpos (rsum_sq_pos _ _ Hv)) as Hlt.
    eapply Rlt_le_trans; [exact Hlt|exact Hb].
Qed.

Lemma predict_covariance_positive_semidefinite_witness :
  positive_definite (VariationalGaussian.jittered_Kzz ex_family1 ex_params1)
  /\ 0 < VariationalGaussian.jitter ex_family1
  /\ positive_semidefinite (joint_prior_covariance ex_family1 ex_params1 ex_t1)
  /\ exists fu fw,
       VariationalGaussian.predict ex_family1 ex_params1 = Some fu
       /\ WhitenedVariationalGaussian.predict ex_family1 ex_params1 = Some fw
       /\ positive_definite (covariance (fu ex_t1))
       /\ positive_definite (covariance (fw ex_t1)).
Proof.
  assert (Hj : 0 < VariationalGaussian.jitter ex_family1) by (simpl; lra).
  split; [exact ex_jittered_Kzz1_positive_definite|].
  split; [exact Hj|].
  split; [exact ex_joint_positive_semidefinite|].
  destruct (predict_covariance_positive_semidefinite ex_family1 ex_params1 ex_t1
              ex_well_shaped1 ex_jittered_Kzz1_positive_definite (Rlt_le _ _ Hj)
              ex_joint_positive_semidefinite)
    as (fu & fw & Hu & Hw & _ & _ & Hpd).
  destruct (Hpd Hj) as [Pu Pw].
  exists fu, fw. split; [exact Hu|]. split; [exact Hw|].
  split; [exact Pu|exact Pw].
Defined.

(** ** No inducing points *)



(** ** The closed forms of the docstrings *)










(** ** The KL term under whitening *)



